(** * The event log of the media catalog: removal, merge and replay

    A shallow embedding of the event-log layer of the gallery:

    - [removeEvent] of [packages/events/src/remove-event.ts], over a file
      store with an operation trace;
    - [applyEvents], the database wrapper that re-stamps the content hash
      of every changed entry;
    - the helpers these two call ([readEvents], [writeEvents],
      [mergeEvents], the replay engine, [serialize]), which live in
      sibling packages.

    JavaScript objects that are shared and mutated in place (the catalog
    entries) live in a store and are passed around as references.

    Further code of the repository is embedded after the log layer: the
    file list of an entry ([files.js]), the state that
    [webappMiddleware] gives a request, the [disabled] list of
    [useAppConfig], the pure helpers of the single view
    ([findEntryIndex], [encodeUrl], [shuffleIndices]), the arithmetic of
    the [UnitSlider] and the store of the single view. *)

From Stdlib Require Import String Ascii OrdersEx.
From stdpp Require Import gmap strings list sorting.

Local Open Scope string_scope.
Local Open Scope list_scope.

(** ** Events and event logs *)

(** Modelled from the spec: the [Event] record of [models.js], with the
    fields of the data model ([id], [type], [targetId], [payload],
    [createdAt]).  The payload is an opaque structured value, kept as a
    list of named string properties; time stamps are ISO strings, like
    [updated] of a catalog entry. *)
Module Event.
Record t := mk {
  id : string;
  type : string;
  targetId : string;
  payload : list (string * string);
  createdAt : string
}.
End Event.

#[global] Instance Event_eq_dec : EqDecision Event.t.
Proof. solve_decision. Defined.

(** Modelled from the spec: the header of [header.js], a schema version
    and a log type. *)
Module EventHeader.
Record t := mk {
  version : Z;
  logType : string
}.
End EventHeader.

#[global] Instance EventHeader_eq_dec : EqDecision EventHeader.t.
Proof. solve_decision. Defined.

(** The document of a log file: [{ header, data: [Event, ...] }]. *)
Module EventLog.
Record t := mk {
  header : EventHeader.t;
  data : list Event.t
}.
End EventLog.

#[global] Instance EventLog_eq_dec : EqDecision EventLog.t.
Proof. solve_decision. Defined.

(** Modelled from the spec: [createHeader(logType, version)], a pure
    constructor. *)
Definition createHeader (logType : string) (version : Z) : EventHeader.t :=
  EventHeader.mk version logType.

(** ** The file store *)

(** What a path holds: a well-formed log document, or bytes that do not
    parse as one. *)
Inductive FileContent :=
  | LogFile (log : EventLog.t)
  | Malformed.

(** The file operations a call performs, oldest first. *)
Inductive FileOp :=
  | OpAccess (path : string)
  | OpRead (path : string)
  | OpWrite (path : string) (events : list Event.t).

#[global] Instance FileOp_eq_dec : EqDecision FileOp.
Proof. solve_decision. Defined.

Record World := mkWorld {
  files : gmap string FileContent;
  trace : list FileOp
}.

Inductive Error :=
  | MalformedLog
  | IncompatibleHeader.

(** An awaited computation: it ends in a value or in a rejection, and
    leaves a world behind either way. *)
Definition IO (A : Type) : Type := World → (Error + A) * World.

Definition ioRet {A} (a : A) : IO A := λ w, (inr a, w).

Definition ioBind {A B} (m : IO A) (k : A → IO B) : IO B :=
  λ w, match m w with
       | (inr a, w') => k a w'
       | (inl err, w') => (inl err, w')
       end.

Notation "'await' x ':=' m 'in' k" := (ioBind m (λ x, k))
  (at level 10, x name, m at level 100, k at level 200,
   format "'[v' 'await'  x  ':='  m  'in' '/' k ']'").

Definition performed (op : FileOp) (w : World) : World :=
  mkWorld (files w) (trace w ++ [op]).

(** [fs.access(path).then(() => true).catch(() => false)] *)
Definition access (path : string) : IO bool :=
  λ w, (inr (bool_decide (is_Some (files w !! path))),
        performed (OpAccess path) w).

(** What a call of [removeEvent] resolves to: the bare [return] gives
    [undefined], the other two exits give [null] and the record. *)
Inductive Returned :=
  | Undefined
  | Null
  | Removed (ev : Event.t).

Section Log.

(** The header a log gets when none is on disk yet. *)
Variable defaultHeader : EventHeader.t.

(** Modelled from the spec: [readEvents] of [read-events.js].  An
    absent file reads as the empty log with the default header; a file
    that does not parse fails with [MalformedLog]. *)
Definition readEvents (path : string) : IO EventLog.t :=
  λ w, let w' := performed (OpRead path) w in
       match files w !! path with
       | None => (inr (EventLog.mk defaultHeader []), w')
       | Some (LogFile log) => (inr log, w')
       | Some Malformed => (inl MalformedLog, w')
       end.

(** Modelled from the spec: [writeEvents] of [append-event.js].  The
    whole event sequence is replaced and the header is preserved. *)
Definition writeEvents (path : string) (events : list Event.t) : IO unit :=
  λ w, let hdr := match files w !! path with
                  | Some (LogFile log) => EventLog.header log
                  | _ => defaultHeader
                  end in
       (inr tt,
        mkWorld (<[path := LogFile (EventLog.mk hdr events)]> (files w))
                (trace w ++ [OpWrite path events])).

(** [removeEvent] of [remove-event.ts].  The logger calls write to no
    file of the store and are left out. *)
Definition removeEvent (eventsFilename : string) (eventToRemove : Event.t)
  : IO Returned :=
  await exists_ := access eventsFilename in
  if negb exists_ then ioRet Undefined
  else
    await fileEvents := readEvents eventsFilename in
    let targetId := Event.id eventToRemove in
    let removedEvents :=
      filter (λ ev, Event.id ev = targetId) (EventLog.data fileEvents) in
    if (length removedEvents =? 0)%nat then ioRet Null
    else
      let remaining :=
        filter (λ ev, Event.id ev ≠ targetId) (EventLog.data fileEvents) in
      await _u := writeEvents eventsFilename remaining in
      ioRet (match removedEvents with
             | ev :: _ => Removed ev
             | [] => Undefined
             end).

End Log.

(** ** Merging two logs *)

Section Merge.

(** The compatibility class of a schema version (for instance its major
    number). *)
Variable versionClass : Z → Z.



(** The sort key [(createdAt, id)], compared lexicographically. *)
Definition eventLeb (a b : Event.t) : bool :=
  match String_as_OT.compare (Event.createdAt a) (Event.createdAt b) with
  | Lt => true
  | Gt => false
  | Eq => match String_as_OT.compare (Event.id a) (Event.id b) with
          | Gt => false
          | _ => true
          end
  end.




End Merge.

(** ** Catalog entries and the content hash *)

(** A file descriptor of an entry,
    [{ filepath: string } & Record<string, unknown>]. *)
Module FileRef.
Record t := mk {
  filepath : string;
  others : list (string * string)
}.
End FileRef.

#[global] Instance FileRef_eq_dec : EqDecision FileRef.t.
Proof. solve_decision. Defined.

(** A catalog entry: the fields of the [Taggable] interface, all but [id]
    optional, and the [hash] that [applyEvents] assigns. *)
Module Entry.
Record t := mk {
  id : string;
  updated : option string;
  tags : option (list string);
  appliedEventIds : option (list string);
  files : option (list FileRef.t);
  hash : option string
}.
End Entry.

#[global] Instance Entry_eq_dec : EqDecision Entry.t.
Proof. solve_decision. Defined.

(** The database object; [data] holds the entries, which are shared
    objects: a reference to an entry is its key in [data]. *)
Module Database.
Record t := mk {
  data : gmap string Entry.t
}.
End Database.

Definition joinWith (sep : string) (parts : list string) : string :=
  match parts with
  | [] => EmptyString
  | p :: rest => foldl (λ acc q, acc +:+ sep +:+ q) p rest
  end.

Definition serializeList (items : list string) : string :=
  "[" +:+ joinWith "," items +:+ "]".

Definition serializeProps (props : list (string * string)) : string :=
  "{" +:+ joinWith "," ((λ kv, kv.1 +:+ ":" +:+ kv.2) <$> props) +:+ "}".

Definition serializeFile (file : FileRef.t) : string :=
  serializeProps (("filepath", FileRef.filepath file) :: FileRef.others file).

(** The fields an entry has, by key in a fixed order; an absent optional
    field has no value. *)
Definition entryFields (entry : Entry.t) : list (string * option string) :=
  [ ("appliedEventIds", serializeList <$> Entry.appliedEventIds entry);
    ("files", (λ fs, serializeList (serializeFile <$> fs)) <$> Entry.files entry);
    ("hash", Entry.hash entry);
    ("id", Some (Entry.id entry));
    ("tags", serializeList <$> Entry.tags entry);
    ("updated", Entry.updated entry) ].

(** Modelled from the spec: [serialize(entry, excludeKeys)] of the common
    package, a canonical text of all fields of the entry whose key is not
    excluded. *)
Definition serialize (entry : Entry.t) (excludeKeys : list string) : string :=
  serializeProps
    (omap (λ kv, if bool_decide (kv.1 ∈ excludeKeys) then None
                 else (λ v, (kv.1, v)) <$> kv.2)
          (entryFields entry)).

(** ** Replay *)

Section Replay.

(** The digest of the common package, any function of the text. *)
Variable createHash : string → string.

(** The table of mutation functions, looked up by event type; each is a
    pure function of the payload and the entry. *)
Variable mutation : string → list (string * string) → Entry.t → Entry.t.

(** What applying one event makes of its target: the content fields are
    those the mutation function gives, [updated] is the event's
    [createdAt], and the event's id is recorded.  [id] stays. *)
Definition replayOne (ev : Event.t) (entry : Entry.t) : Entry.t :=
  let mutated := mutation (Event.type ev) (Event.payload ev) entry in
  Entry.mk (Entry.id entry)
           (Some (Event.createdAt ev))
           (Entry.tags mutated)
           (Some (default [] (Entry.appliedEventIds entry) ++ [Event.id ev]))
           (Entry.files mutated)
           (Entry.hash entry).

(** One event of the replay, on the entries and the references of the
    entries changed so far. *)
Definition applyStep (st : gmap string Entry.t * list string) (ev : Event.t)
  : gmap string Entry.t * list string :=
  match st.1 !! Event.targetId ev with
  | None => st
  | Some entry =>
      if bool_decide (Event.id ev ∈ default [] (Entry.appliedEventIds entry))
      then st
      else (<[Event.targetId ev := replayOne ev entry]> st.1,
            if bool_decide (Event.targetId ev ∈ st.2) then st.2
            else st.2 ++ [Event.targetId ev])
  end.

(** Modelled from the spec: [applyEvents] of the events package (the
    replay engine), which the database wrapper imports as
    [applyEventsOrig].  Events are applied in order; an event whose
    target is unknown or which the target has already applied is
    skipped; the changed entries are returned once each. *)
Definition applyEventsOrig (data : gmap string Entry.t)
    (events : list Event.t) (eventsFilename : string)
  : gmap string Entry.t * list string :=
  foldl applyStep (data, []) events.

(** [entry.hash = createHash(serialize(entry, ['hash', 'appliedEventIds']))] *)
Definition stampHash (entry : Entry.t) : Entry.t :=
  Entry.mk (Entry.id entry) (Entry.updated entry) (Entry.tags entry)
           (Entry.appliedEventIds entry) (Entry.files entry)
           (Some (createHash (serialize entry ["hash"; "appliedEventIds"]))).

(** [applyEvents] of the database package.  The entries are mutated in
    place, so the call gives the database it leaves behind and the
    references of the changed entries. *)
Definition applyEvents (database : Database.t) (events : list Event.t)
    (eventsFilename : string) : Database.t * list string :=
  let '(data, changedEntries) :=
    applyEventsOrig (Database.data database) events eventsFilename in
  (Database.mk (foldl (λ store ref, alter stampHash ref store)
                      data changedEntries),
   changedEntries).

(** The entries a call returns, read through their references. *)
Definition returnedEntries (result : Database.t * list string)
  : list (option Entry.t) :=
  (λ ref, Database.data result.1 !! ref) <$> result.2.

End Replay.

(** ** Predicates of the statements *)

(** The order of the sort, as a relation. *)
Definition eventLe (a b : Event.t) : Prop := eventLeb a b = true.

(** [a] sorts strictly before [b]. *)
Definition keyLt (a b : Event.t) : Prop :=
  String_as_OT.lt (Event.createdAt a) (Event.createdAt b)
  ∨ (Event.createdAt a = Event.createdAt b
     ∧ String_as_OT.lt (Event.id a) (Event.id b)).

Definition sameKey (a b : Event.t) : Prop :=
  Event.createdAt a = Event.createdAt b ∧ Event.id a = Event.id b.


(** An event is settled in a store when replaying it there is a no-op:
    its target is unknown, or has the event's id among its applied ids. *)
Definition settled (data : gmap string Entry.t) (ev : Event.t) : Prop :=
  ∀ entry, data !! Event.targetId ev = Some entry →
           Event.id ev ∈ default [] (Entry.appliedEventIds entry).

(** An entry whose [hash] is the digest of its content. *)
Definition stamped (createHash : string → string) (entry : Entry.t) : Prop :=
  Entry.hash entry
  = Some (createHash (serialize entry ["hash"; "appliedEventIds"])).

(** ** A small log, for examples *)

Definition sampleHeader : EventHeader.t := createHeader "events" 1.

Definition beachEvent : Event.t :=
  Event.mk "e1" "addTag" "x" [("tag", "beach")] "2024-05-01T10:00:00Z".

Definition sunEvent : Event.t :=
  Event.mk "e2" "addTag" "x" [("tag", "sun")] "2024-05-02T10:00:00Z".

(** A second record with the id of [beachEvent], as a log that breaks the
    invariant on ids can hold. *)
Definition beachAgain : Event.t :=
  Event.mk "e1" "addTag" "y" [("tag", "beach")] "2024-05-03T10:00:00Z".

Definition strayEvent : Event.t :=
  Event.mk "e9" "addTag" "x" [("tag", "snow")] "2024-05-04T10:00:00Z".

Definition sampleLog (events : list Event.t) : EventLog.t :=
  EventLog.mk sampleHeader events.

Definition sampleWorld (events : list Event.t) : World :=
  mkWorld {[ "events.log" := LogFile (sampleLog events) ]} [].

Definition emptyWorld : World := mkWorld ∅ [].

(** A table with one mutation, [addTag], which appends the values of the
    payload to the tags. *)
Definition tagMutation (type : string) (payload : list (string * string))
    (entry : Entry.t) : Entry.t :=
  if bool_decide (type = "addTag") then
    Entry.mk (Entry.id entry) (Entry.updated entry)
             (Some (default [] (Entry.tags entry) ++ payload.*2))
             (Entry.appliedEventIds entry) (Entry.files entry)
             (Entry.hash entry)
  else entry.

(** A stand-in for the digest: the text itself. *)
Definition plainDigest (text : string) : string := text.

Definition entryX : Entry.t :=
  Entry.mk "x" None (Some []) (Some []) None None.

Definition sampleDatabase : Database.t :=
  Database.mk {[ "x" := entryX ]}.

(** ** More of the log layer *)

(** The path a file operation works on. *)
Definition opPath (op : FileOp) : string :=
  match op with
  | OpAccess path | OpRead path | OpWrite path _ => path
  end.

(** What [removeEvent] returns for the records that match the target:
    [null] for none, else [removedEvents[0]]. *)
Definition outcomeOf (removedEvents : list Event.t) : Returned :=
  match removedEvents with
  | [] => Null
  | ev :: _ => Removed ev
  end.

(** ** The files of an entry ([files.js]) and the encoding of a URL part *)

Definition backslash : ascii := "092"%char.

Definition slash : ascii := "/"%char.

(** [toSlash]: [file.replaceAll(/\\/g, '/')]. *)
Fixpoint toSlash (file : string) : string :=
  match file with
  | EmptyString => EmptyString
  | String c rest =>
      String (if Ascii.eqb c backslash then slash else c) (toSlash rest)
  end.

(** The six properties that [mapFile] takes from an entry or a sidecar. *)
Module IndexedFile.
Record t := mk {
  sha1sum : string;
  indexName : string;
  type : string;
  size : Z;
  filename : string;
  filepath : string
}.
End IndexedFile.

(** An entry of the file index: its own six properties and its
    sidecars. *)
Module IndexedEntry.
Record t := mk {
  own : IndexedFile.t;
  sidecars : list IndexedFile.t
}.
End IndexedEntry.

Module MediaFile.
Record t := mk {
  id : string;
  index : string;
  type : string;
  size : Z;
  filename : string;
  filepath : string
}.
End MediaFile.

(** [mapFile] of [files.js]. *)
Definition mapFile (file : IndexedFile.t) : MediaFile.t :=
  MediaFile.mk (IndexedFile.sha1sum file) (IndexedFile.indexName file)
               (IndexedFile.type file) (IndexedFile.size file)
               (toSlash (IndexedFile.filename file))
               (IndexedFile.filepath file).

(** [getFiles] of [files.js]:
    [[mapFile(entry)].concat(entry.sidecars.map(mapFile))]. *)
Definition getFiles (entry : IndexedEntry.t) : list MediaFile.t :=
  [mapFile (IndexedEntry.own entry)]
  ++ (mapFile <$> IndexedEntry.sidecars entry).

(** [encodeUrl] of [MediaView.tsx]:
    [url.replace(/[\/]/g, char => encodeURIComponent(char))], where
    [encodeURIComponent('/')] is the text [%2F]. *)
Fixpoint encodeUrl (url : string) : string :=
  match url with
  | EmptyString => EmptyString
  | String c rest =>
      if Ascii.eqb c slash then "%2F" +:+ encodeUrl rest
      else String c (encodeUrl rest)
  end.

(** How often a character occurs in a text. *)
Fixpoint occurrences (c : ascii) (text : string) : nat :=
  match text with
  | EmptyString => 0
  | String d rest =>
      (if Ascii.eqb d c then 1 else 0) + occurrences c rest
  end.

(** ** The state the web application starts with ([webappMiddleware]) *)

Definition dot : ascii := "."%char.

(** [name.replace(/\.[^.]+$/, '')].  The pattern matches at the first
    dot, from the left, that is followed up to the end of the name by one
    or more characters none of which is a dot; the match reaches the end
    of the name and is replaced by the empty text. *)
Fixpoint stripExtension (name : string) : string :=
  match name with
  | EmptyString => EmptyString
  | String c rest =>
      if Ascii.eqb c dot
         && negb (Nat.eqb (String.length rest) 0)
         && Nat.eqb (occurrences dot rest) 0
      then EmptyString
      else String c (stripExtension rest)
  end.

(** A source of the configuration; a flag that is not set is [false]. *)
Module Source.
Record t := mk {
  index : string;
  downloadable : bool;
  offline : bool
}.
End Source.

Module SourceState.
Record t := mk {
  indexName : string;
  downloadable : bool
}.
End SourceState.

(** The part of the configuration that the middleware reads for the
    state ([config.webapp.disabled], [config.webapp.title],
    [config.sources]); each can be absent. *)
Module WebappConfig.
Record t := mk {
  disabled : option (list string);
  title : option string;
  sources : option (list Source.t)
}.
End WebappConfig.

(** The keys of [req.webapp.state] that the middleware computes from
    the configuration and the request ([entries] comes from the
    database). *)
Module WebappState.
Record t := mk {
  plugins : list string;
  sources : list SourceState.t;
  title : string;
  disabled : list string
}.
End WebappState.

(** [!!req.username] *)
Definition loggedIn (username : option string) : bool :=
  match username with
  | Some name => negb (Nat.eqb (String.length name) 0)
  | None => false
  end.

Section Webapp.

(** [path.basename] of the platform. *)
Variable basename : string → string.

(** The [sources] of [webappMiddleware]. *)
Definition webappSources (sources : option (list Source.t))
  : list SourceState.t :=
  (λ source,
     SourceState.mk (stripExtension (basename (Source.index source))) true)
  <$> filter (λ source, Source.downloadable source
                        && negb (Source.offline source))
             (default [] sources).

(** The state that [webappMiddleware] gives a request: [staticState]
    and the [disabled] list of the request. *)
Definition webappState (config : WebappConfig.t)
    (publicEntries : list string) (username : option string)
  : WebappState.t :=
  let pluginEntries := (λ entry, "/plugins/" +:+ entry) <$> publicEntries in
  let disabled := default [] (WebappConfig.disabled config) in
  WebappState.mk
    pluginEntries
    (webappSources (WebappConfig.sources config))
    (match WebappConfig.title config with
     | Some title =>
         if Nat.eqb (String.length title) 0 then "Home Gallery" else title
     | None => "Home Gallery"
     end)
    (if loggedIn username then disabled ++ ["pwa"] else disabled).

End Webapp.

(** ** The configuration of the browser application ([useAppConfig]) *)

(** The arrays that the [disabled] of a result can be: the one of the
    module's [defaultConfig], and the one of the injected
    [window.__homeGallery] when it has the key.  Both outlive a call. *)
Record ConfigHeap := mkConfigHeap {
  defaultDisabled : list string;
  injectedDisabled : option (list string)
}.

(** The callback of [useAppConfig], on [disabled]: the result takes the
    array of the injected configuration, or else that of the default,
    and the non-empty values of the query parameter [disabled] are
    pushed onto that array.  The call gives the list as it is then. *)
Definition useAppConfig (queryDisabled : list string) (heap : ConfigHeap)
  : list string * ConfigHeap :=
  let added :=
    filter (λ v, negb (Nat.eqb (String.length v) 0)) queryDisabled in
  match injectedDisabled heap with
  | Some injected =>
      (injected ++ added,
       mkConfigHeap (defaultDisabled heap) (Some (injected ++ added)))
  | None =>
      (defaultDisabled heap ++ added,
       mkConfigHeap (defaultDisabled heap ++ added) None)
  end.

(** ** The single view ([MediaView.tsx]) *)

(** An entry of the entry store, with the properties the view reads to
    find and to show it. *)
Module Media.
Record t := mk {
  id : string;
  shortId : string;
  type : string
}.
End Media.

(** [entries[i]] for a whole number [i]: [undefined] out of range. *)
Definition entryAt (entries : list Media.t) (i : Z) : option Media.t :=
  if (i <? 0)%Z then None else entries !! Z.to_nat i.

(** The loop of [findEntryIndex], from the entry at position [i] on. *)
Fixpoint firstStartingWith (id : string) (entries : list Media.t) (i : Z)
  : Z :=
  match entries with
  | [] => (-1)%Z
  | entry :: rest =>
      if String.prefix id (Media.id entry) then i
      else firstStartingWith id rest (i + 1)%Z
  end.

(** [findEntryIndex(location, entries, id)]; [stateIndex] is
    [location.state?.index], absent or a whole number. *)
Definition findEntryIndex (stateIndex : option Z) (entries : list Media.t)
    (id : string) : Z :=
  match stateIndex with
  | Some index =>
      if negb (index =? 0)%Z
         && match entryAt entries index with
            | Some entry => String.prefix id (Media.id entry)
            | None => false
            end
      then index
      else firstStartingWith id entries 0
  | None => firstStartingWith id entries 0
  end.

(** [text.startsWith(start)] *)
Definition startsWith (text start : string) : Prop :=
  ∃ rest, text = start +:+ rest.

(** [[indices[i], indices[j]] = [indices[j], indices[i]]], for two
    positions of the array (the shuffle draws no other). *)
Definition swapAt (indices : list nat) (i j : nat) : list nat :=
  match indices !! i, indices !! j with
  | Some x, Some y => <[j := x]> (<[i := y]> indices)
  | _, _ => indices
  end.

(** The loop of [shuffleIndices], from position [i] down to 1;
    [draw i] is [Math.floor(Math.random() * (i + 1))] at position [i]. *)
Fixpoint shuffleFrom (draw : nat → nat) (i : nat) (indices : list nat)
  : list nat :=
  match i with
  | 0 => indices
  | S below => shuffleFrom draw below (swapAt indices i (draw i))
  end.

(** [shuffleIndices(length)] *)
Definition shuffleIndices (draw : nat → nat) (length : nat) : list nat :=
  shuffleFrom draw (length - 1) (seq 0 length).

(** The index that the action [index] views:
    [Math.min(entries.length - 1, Math.max(0, action.index))]. *)
Definition indexToView (length index : Z) : Z :=
  Z.min (length - 1) (Z.max 0 index).

(** A value of the configuration, as far as its truth matters. *)
Inductive JsValue :=
  | JsUndefined
  | JsNull
  | JsBool (b : bool)
  | JsNumber (n : Z)
  | JsString (s : string).

Definition truthy (v : JsValue) : bool :=
  match v with
  | JsUndefined | JsNull => false
  | JsBool b => b
  | JsNumber n => negb (n =? 0)%Z
  | JsString s => negb (Nat.eqb (String.length s) 0)
  end.

(** [a || b] *)
Definition jsOr (a b : JsValue) : JsValue := if truthy a then a else b.

(** [appConfig.slideshow?.random || true] *)
Definition isSlideshowRandomised (random : JsValue) : JsValue :=
  jsOr random (JsBool true).

(** [appConfig.slideshow?.loop || true] *)
Definition loopImages (loop : JsValue) : JsValue :=
  jsOr loop (JsBool true).

(** ** The sliders of the settings menu ([UnitSlider]) *)

(** Numbers are whole here: a count of milliseconds or seconds, a
    position of the slider. *)
Module TimeUnit.
Inductive t := sec | min | hr.
End TimeUnit.

#[global] Instance TimeUnit_eq_dec : EqDecision TimeUnit.t.
Proof. solve_decision. Defined.

Definition units : list TimeUnit.t :=
  [TimeUnit.sec; TimeUnit.min; TimeUnit.hr].

Definition multipliers (unit : TimeUnit.t) : Z :=
  match unit with
  | TimeUnit.sec => 1000
  | TimeUnit.min => 60 * 1000
  | TimeUnit.hr => 3600 * 1000
  end.

Definition multipliersSec (unit : TimeUnit.t) : Z :=
  match unit with
  | TimeUnit.sec => 1
  | TimeUnit.min => 60
  | TimeUnit.hr => 3600
  end.

(** [detectUnit(ms)]; [%] is the remainder with the sign of [ms]. *)
Definition detectUnit (ms : Z) : TimeUnit.t :=
  if (Z.rem ms (multipliers TimeUnit.hr) =? 0)%Z then TimeUnit.hr
  else if (Z.rem ms (multipliers TimeUnit.min) =? 0)%Z then TimeUnit.min
  else TimeUnit.sec.

(** [Math.round(a / b)] for whole [a] and positive [b]: the nearest
    whole number, a half going up. *)
Definition roundDiv (a b : Z) : Z := ((2 * a + b) / (2 * b))%Z.

(** [Math.ceil(a / b)] for whole [a] and positive [b]. *)
Definition ceilDiv (a b : Z) : Z := (- ((- a) / b))%Z.

(** [sliderValue]: the number the slider shows for [valueMs]. *)
Definition sliderValue (valueMs : Z) (unit : TimeUnit.t) : Z :=
  roundDiv valueMs (multipliers unit).

(** [calcMinForUnit(uni)], with the [minSeconds] of the slider. *)
Definition calcMinForUnit (minSeconds : Z) (uni : TimeUnit.t) : Z :=
  Z.min 60 (Z.max 1 (ceilDiv minSeconds (multipliersSec uni))).

(** [handleSliderChange]: the milliseconds passed to [onChange] when the
    slider is moved to [raw]. *)
Definition handleSliderChange (minSeconds : Z) (unit : TimeUnit.t)
    (raw : Z) : Z :=
  let minForUnit := calcMinForUnit minSeconds unit in
  let clamped := Z.max minForUnit (Z.min 60 raw) in
  (clamped * multipliers unit)%Z.

(** [units.indexOf(unit)] *)
Definition indexOfUnit (unit : TimeUnit.t) : nat :=
  match unit with
  | TimeUnit.sec => 0
  | TimeUnit.min => 1
  | TimeUnit.hr => 2
  end.

(** [units[(units.indexOf(unit) + 1) % units.length]] *)
Definition nextUnit (unit : TimeUnit.t) : TimeUnit.t :=
  default TimeUnit.sec
          (units !! ((indexOfUnit unit + 1) mod length units)%nat).

(** [cycleUnit]: the unit that is set and the milliseconds passed to
    [onChange], for the value [valueMs] shown in [unit]. *)
Definition cycleUnit (minSeconds : Z) (unit : TimeUnit.t) (valueMs : Z)
  : TimeUnit.t * Z :=
  let next := nextUnit unit in
  let minForNextUnit := calcMinForUnit minSeconds next in
  let shown := sliderValue valueMs unit in
  let newMs :=
    ((if (shown <? minForNextUnit)%Z then minForNextUnit else shown)
     * multipliers next)%Z in
  (next, newMs).

(** ** The store of the single view ([single-view-store]) *)

(** [excludeStateProps(excludeProps)(state)]: the entries of the state
    whose key is not excluded, as an object again. *)
Definition excludeStateProps {V : Type} (excludeProps : list string)
    (state : gmap string V) : gmap string V :=
  filter (λ entry, entry.1 ∉ excludeProps) state.

(** The values of the store. *)
Module SingleViewStore.
Record t := mk {
  lastId : string;
  lastIndex : Z;
  showDetails : bool;
  showAnnotations : bool;
  showNavigation : bool;
  isSlideshowActive : bool;
  hideNavigation : bool;
  shuffledIndex : Z;
  shuffledIndices : list Z;
  loopImages : bool;
  shuffleImages : bool;
  shuffleDirty : bool;
  resetSearchOnLoopEnd : bool;
  slideshowInterval : Z;
  slideshowTimeout : Z;
  navigationTimeout : Z
}.
End SingleViewStore.

(** [toggleShowNavigation]: [set(state => ({showNavigation: !state.showNavigation}))] *)
Definition toggleShowNavigation (s : SingleViewStore.t) : SingleViewStore.t :=
  SingleViewStore.mk
    (SingleViewStore.lastId s) (SingleViewStore.lastIndex s)
    (SingleViewStore.showDetails s) (SingleViewStore.showAnnotations s)
    (negb (SingleViewStore.showNavigation s))
    (SingleViewStore.isSlideshowActive s) (SingleViewStore.hideNavigation s)
    (SingleViewStore.shuffledIndex s) (SingleViewStore.shuffledIndices s)
    (SingleViewStore.loopImages s) (SingleViewStore.shuffleImages s)
    (SingleViewStore.shuffleDirty s) (SingleViewStore.resetSearchOnLoopEnd s)
    (SingleViewStore.slideshowInterval s) (SingleViewStore.slideshowTimeout s)
    (SingleViewStore.navigationTimeout s).

(** [setIsSlideshowActive(active)] *)
Definition setIsSlideshowActive (active : bool) (s : SingleViewStore.t)
  : SingleViewStore.t :=
  SingleViewStore.mk
    (SingleViewStore.lastId s) (SingleViewStore.lastIndex s)
    (SingleViewStore.showDetails s) (SingleViewStore.showAnnotations s)
    (SingleViewStore.showNavigation s)
    active (SingleViewStore.hideNavigation s)
    (SingleViewStore.shuffledIndex s) (SingleViewStore.shuffledIndices s)
    (SingleViewStore.loopImages s) (SingleViewStore.shuffleImages s)
    (SingleViewStore.shuffleDirty s) (SingleViewStore.resetSearchOnLoopEnd s)
    (SingleViewStore.slideshowInterval s) (SingleViewStore.slideshowTimeout s)
    (SingleViewStore.navigationTimeout s).

(** [setShuffledIndices(indices)] *)
Definition setShuffledIndices (indices : list Z) (s : SingleViewStore.t)
  : SingleViewStore.t :=
  SingleViewStore.mk
    (SingleViewStore.lastId s) (SingleViewStore.lastIndex s)
    (SingleViewStore.showDetails s) (SingleViewStore.showAnnotations s)
    (SingleViewStore.showNavigation s)
    (SingleViewStore.isSlideshowActive s) (SingleViewStore.hideNavigation s)
    (SingleViewStore.shuffledIndex s) indices
    (SingleViewStore.loopImages s) (SingleViewStore.shuffleImages s)
    (SingleViewStore.shuffleDirty s) (SingleViewStore.resetSearchOnLoopEnd s)
    (SingleViewStore.slideshowInterval s) (SingleViewStore.slideshowTimeout s)
    (SingleViewStore.navigationTimeout s).

(** What the effect of [AllView] does to the store when the view is
    mounted (the search store is reset besides). *)
Definition allViewMounted (s : SingleViewStore.t) : SingleViewStore.t :=
  let s1 := setIsSlideshowActive false s in
  let s2 := if negb (SingleViewStore.showNavigation s1)
            then toggleShowNavigation s1 else s1 in
  setShuffledIndices [] s2.

(** * Properties *)

(** Closed facts about concrete data, by evaluation. *)
Ltac by_evaluation := apply (bool_decide_unpack _); vm_compute; exact I.

(** ** Lists split by a filter *)

Section FilterFacts.

Context {A : Type} (P : A → Prop) `{!∀ x, Decision (P x)}.

Lemma filter_first_split (l : list A) (x : A) (rest : list A) :
  filter P l = x :: rest →
  ∃ l1 l2, l = l1 ++ x :: l2 ∧ Forall (λ y, ¬ P y) l1 ∧ P x
           ∧ filter P l2 = rest.
Proof.
  induction l as [|y l IH]; [done|].
  rewrite filter_cons. destruct (decide (P y)) as [Hy|Hy].
  - intros [= -> <-]. by exists [], l.
  - intros (l1 & l2 & -> & Hl1 & Hx & Hrest)%IH.
    exists (y :: l1), l2. split_and!; [done| |done..].
    by constructor.
Qed.

Lemma filter_none (l : list A) :
  filter P l = [] ↔ Forall (λ y, ¬ P y) l.
Proof.
  induction l as [|y l IH]; [by split; [constructor|]|].
  rewrite filter_cons, Forall_cons. destruct (decide (P y)); [|tauto].
  split; [done|tauto].
Qed.

Lemma filter_complement_all (l : list A) :
  Forall (λ y, ¬ P y) l → filter (λ y, ¬ P y) l = l.
Proof.
  induction 1 as [|y l Hy _ IH]; [done|].
  by rewrite filter_cons_True, IH.
Qed.

Lemma filter_complement_app (l1 l2 : list A) (x : A) :
  Forall (λ y, ¬ P y) l1 → P x →
  filter (λ y, ¬ P y) (l1 ++ x :: l2) = l1 ++ filter (λ y, ¬ P y) l2.
Proof.
  intros Hl1 Hx.
  rewrite filter_app, filter_complement_all, filter_cons_False by tauto.
  done.
Qed.

Lemma filter_complement_length (l : list A) :
  length (filter (λ y, ¬ P y) l) + length (filter P l) = length l.
Proof.
  rewrite <-(Permutation_length (filter_app_complement P l)).
  rewrite length_app. lia.
Qed.

Lemma filter_complement_clean (l : list A) :
  Forall (λ y, ¬ P y) (filter (λ y, ¬ P y) l).
Proof. apply Forall_forall. by intros y [? _]%list_elem_of_filter. Qed.

End FilterFacts.

(** ** Removing an event from a log *)

Section RemoveEvent.

Variable defaultHeader : EventHeader.t.

(** The three ways through [removeEvent], as equations. *)

Lemma removeEvent_absent (path : string) (target : Event.t) (w : World) :
  files w !! path = None →
  removeEvent defaultHeader path target w
  = (inr Undefined, mkWorld (files w) (trace w ++ [OpAccess path])).
Proof.
  intros Hfile. unfold removeEvent, ioBind, access.
  rewrite Hfile.
  by rewrite bool_decide_eq_false_2 by (by intros [? ?]).
Qed.

Lemma removeEvent_not_found (path : string) (target : Event.t) (w : World)
    (log : EventLog.t) :
  files w !! path = Some (LogFile log) →
  filter (λ ev, Event.id ev = Event.id target) (EventLog.data log) = [] →
  removeEvent defaultHeader path target w
  = (inr Null, mkWorld (files w) (trace w ++ [OpAccess path; OpRead path])).
Proof.
  intros Hfile Hnone.
  unfold removeEvent, ioBind, access, readEvents.
  rewrite Hfile, bool_decide_eq_true_2 by eauto.
  cbn [negb performed files]. rewrite Hfile, Hnone.
  unfold ioRet, performed; cbn [length Nat.eqb files trace].
  by rewrite <-app_assoc.
Qed.

Lemma removeEvent_found (path : string) (target : Event.t) (w : World)
    (log : EventLog.t) (ev : Event.t) (rest : list Event.t) :
  files w !! path = Some (LogFile log) →
  filter (λ ev, Event.id ev = Event.id target) (EventLog.data log)
  = ev :: rest →
  let remaining :=
    filter (λ ev, Event.id ev ≠ Event.id target) (EventLog.data log) in
  removeEvent defaultHeader path target w
  = (inr (Removed ev),
     mkWorld
       (<[path := LogFile (EventLog.mk (EventLog.header log) remaining)]>
          (files w))
       (trace w ++ [OpAccess path; OpRead path; OpWrite path remaining])).
Proof.
  intros Hfile Hsome remaining.
  unfold removeEvent, ioBind, access, readEvents, writeEvents.
  rewrite Hfile, bool_decide_eq_true_2 by eauto.
  cbn [negb performed files]. rewrite Hfile, Hsome.
  unfold ioRet, performed; cbn [length Nat.eqb files trace].
  rewrite Hfile. by rewrite <-!app_assoc.
Qed.

(** A log without duplicate ids holds an id at one place only. *)
Lemma unique_id_split (events : list Event.t) (target : Event.t) :
  NoDup (Event.id <$> events) →
  Event.id target ∈ Event.id <$> events →
  ∃ before ev after,
    events = before ++ ev :: after
    ∧ Event.id ev = Event.id target
    ∧ Forall (λ x, Event.id x ≠ Event.id target) (before ++ after).
Proof.
  intros Hnodup (ev & Hid & (before & after & ->)%list_elem_of_split)
    %list_elem_of_fmap.
  exists before, ev, after. split_and!; [done..|].
  rewrite fmap_app, fmap_cons in Hnodup.
  apply NoDup_app in Hnodup as (_ & Hbefore & [Hafter _]%NoDup_cons).
  apply Forall_forall. intros x Hx Heq.
  assert (Event.id ev ∈ Event.id <$> before ∨ Event.id ev ∈ Event.id <$> after)
    as [Hin|Hin].
  { apply elem_of_app in Hx as [Hx|Hx]; [left|right];
      apply list_elem_of_fmap; exists x; split; congruence. }
  - apply (Hbefore _ Hin). left.
  - done.
Qed.

(** C4: on a log file that holds exactly one event with the id of the
    target, [removeEvent] rewrites the file so that it holds exactly the
    other events in their order (the header kept), and it returns the
    event record that was removed. *)
Theorem removeEvent_removes_single_event
    (path : string) (target : Event.t) (w : World) (log : EventLog.t) :
  files w !! path = Some (LogFile log) →
  length (filter (λ ev, Event.id ev = Event.id target) (EventLog.data log)) = 1 →
  ∃ before ev after,
    EventLog.data log = before ++ ev :: after
    ∧ Event.id ev = Event.id target
    ∧ Forall (λ x, Event.id x ≠ Event.id target) (before ++ after)
    ∧ removeEvent defaultHeader path target w
      = (inr (Removed ev),
         mkWorld
           (<[path := LogFile (EventLog.mk (EventLog.header log)
                                           (before ++ after))]> (files w))
           (trace w ++ [OpAccess path; OpRead path;
                        OpWrite path (before ++ after)])).
Proof.
  intros Hfile Hone.
  destruct (filter _ (EventLog.data log)) as [|ev [|? ?]] eqn:Hmatch;
    try discriminate Hone.
  destruct (filter_first_split _ _ _ _ Hmatch)
    as (before & after & Hdata & Hbefore & Hev & Hafter%filter_none).
  exists before, ev, after.
  assert (filter (λ x, Event.id x ≠ Event.id target) (EventLog.data log)
          = before ++ after) as Hremaining.
  { rewrite Hdata.
    rewrite (filter_complement_app (λ x, Event.id x = Event.id target))
      by done.
    by rewrite filter_complement_all. }
  split_and!; [done|done|by apply Forall_app| ].
  rewrite (removeEvent_found path target w log ev [] Hfile Hmatch).
  by rewrite Hremaining.
Qed.

(** C5: on a log file that holds no event with the id of the target,
    [removeEvent] returns [null]; it reads the log and writes nothing,
    so every file is as it was. *)
Theorem removeEvent_unknown_id_returns_null
    (path : string) (target : Event.t) (w : World) (log : EventLog.t) :
  files w !! path = Some (LogFile log) →
  Forall (λ ev, Event.id ev ≠ Event.id target) (EventLog.data log) →
  removeEvent defaultHeader path target w
  = (inr Null, mkWorld (files w) (trace w ++ [OpAccess path; OpRead path])).
Proof.
  intros Hfile Hnone. eapply removeEvent_not_found; [done|].
  by apply filter_none.
Qed.

(** C6: where no log file exists, [removeEvent] only probes the path:
    it reads no log, writes and creates no file, and resolves (to
    [undefined], nothing removed) instead of failing. *)
Theorem removeEvent_absent_file_is_noop
    (path : string) (target : Event.t) (w : World) :
  files w !! path = None →
  removeEvent defaultHeader path target w
  = (inr Undefined, mkWorld (files w) (trace w ++ [OpAccess path])).
Proof. apply removeEvent_absent. Qed.

(** C7: on a log without duplicate ids that holds the target, the first
    of two calls in a row returns the event and the second returns
    [null]; afterwards the log is one record shorter. *)
Theorem removeEvent_twice
    (path : string) (target : Event.t) (w : World) (log : EventLog.t) :
  files w !! path = Some (LogFile log) →
  NoDup (Event.id <$> EventLog.data log) →
  Event.id target ∈ Event.id <$> EventLog.data log →
  ∃ ev w1 w2 log2,
    removeEvent defaultHeader path target w = (inr (Removed ev), w1)
    ∧ ev ∈ EventLog.data log
    ∧ Event.id ev = Event.id target
    ∧ removeEvent defaultHeader path target w1 = (inr Null, w2)
    ∧ files w2 !! path = Some (LogFile log2)
    ∧ S (length (EventLog.data log2)) = length (EventLog.data log).
Proof.
  intros Hfile Hnodup Hin.
  destruct (unique_id_split _ _ Hnodup Hin)
    as (before & ev & after & Hdata & Hev & Hothers).
  pose proof Hothers as [Hbefore Hafter]%Forall_app.
  assert (filter (λ x, Event.id x = Event.id target) (EventLog.data log)
          = [ev]) as Hmatch.
  { rewrite Hdata, filter_app, filter_cons_True by done.
    by rewrite !(proj2 (filter_none _ _)). }
  assert (filter (λ x, Event.id x ≠ Event.id target) (EventLog.data log)
          = before ++ after) as Hremaining.
  { rewrite Hdata.
    rewrite (filter_complement_app (λ x, Event.id x = Event.id target))
      by done.
    by rewrite filter_complement_all. }
  pose proof (removeEvent_found path target w log ev [] Hfile Hmatch) as Hfirst.
  cbn zeta in Hfirst. rewrite Hremaining in Hfirst.
  set (log2 := EventLog.mk (EventLog.header log) (before ++ after)) in *.
  eexists ev, _, _, log2. split; [exact Hfirst|].
  split_and!.
  - rewrite Hdata. apply elem_of_app. right. left.
  - done.
  - apply removeEvent_not_found with (log := log2).
    + cbn. apply lookup_insert_eq.
    + by apply filter_none.
  - cbn. apply lookup_insert_eq.
  - rewrite Hdata. cbn. rewrite !length_app. cbn. lia.
Qed.

(** C9: the two outcomes in which nothing is removed differ in the value
    returned: [undefined] where the file is absent, [null] where the
    file holds no event with the id of the target. *)
Theorem removeEvent_undefined_versus_null
    (path : string) (target : Event.t) (wAbsent wPresent : World)
    (log : EventLog.t) :
  files wAbsent !! path = None →
  files wPresent !! path = Some (LogFile log) →
  Forall (λ ev, Event.id ev ≠ Event.id target) (EventLog.data log) →
  (removeEvent defaultHeader path target wAbsent).1 = inr Undefined
  ∧ (removeEvent defaultHeader path target wPresent).1 = inr Null
  ∧ (removeEvent defaultHeader path target wAbsent).1
    ≠ (removeEvent defaultHeader path target wPresent).1.
Proof.
  intros Habsent Hpresent Hnone.
  rewrite (removeEvent_absent _ _ _ Habsent).
  rewrite (removeEvent_not_found _ _ _ log Hpresent)
    by (by apply filter_none).
  by split_and!.
Qed.

(** C10: on a log that holds two or more events with the id of the
    target, [removeEvent] drops every one of them from the rewritten
    file, so the log shrinks by the number of matching records, and it
    returns the first of them in log order. *)
Theorem removeEvent_duplicate_ids
    (path : string) (target : Event.t) (w : World) (log : EventLog.t) :
  files w !! path = Some (LogFile log) →
  (2 ≤ length (filter (λ ev, Event.id ev = Event.id target)
                      (EventLog.data log)))%nat →
  let matching :=
    filter (λ ev, Event.id ev = Event.id target) (EventLog.data log) in
  let remaining :=
    filter (λ ev, Event.id ev ≠ Event.id target) (EventLog.data log) in
  ∃ before ev after,
    EventLog.data log = before ++ ev :: after
    ∧ Forall (λ x, Event.id x ≠ Event.id target) before
    ∧ Event.id ev = Event.id target
    ∧ removeEvent defaultHeader path target w
      = (inr (Removed ev),
         mkWorld
           (<[path := LogFile (EventLog.mk (EventLog.header log) remaining)]>
              (files w))
           (trace w ++ [OpAccess path; OpRead path; OpWrite path remaining]))
    ∧ Forall (λ x, Event.id x ≠ Event.id target) remaining
    ∧ length remaining + length matching = length (EventLog.data log)
    ∧ (length remaining + 2 ≤ length (EventLog.data log))%nat.
Proof.
  intros Hfile Hmany matching remaining.
  destruct matching as [|ev rest] eqn:Hmatch;
    [subst matching; rewrite Hmatch in Hmany; cbn in Hmany; lia|].
  destruct (filter_first_split _ _ _ _ Hmatch)
    as (before & after & Hdata & Hbefore & Hev & _).
  exists before, ev, after.
  pose proof (filter_complement_length
                (λ x, Event.id x = Event.id target) (EventLog.data log))
    as Hlen.
  split_and!; [done..| | | |].
  - by apply removeEvent_found with (rest := rest).
  - apply (filter_complement_clean (λ x, Event.id x = Event.id target)).
  - subst remaining. rewrite <-Hlen. f_equal.
    by rewrite <-Hmatch.
  - subst remaining. lia.
Qed.

End RemoveEvent.

Lemma removeEvent_removes_single_event_witness :
  ∃ before ev after,
    [beachEvent; sunEvent; strayEvent] = before ++ ev :: after
    ∧ Event.id ev = "e2"
    ∧ Forall (λ x, Event.id x ≠ "e2") (before ++ after)
    ∧ removeEvent sampleHeader "events.log" sunEvent
        (sampleWorld [beachEvent; sunEvent; strayEvent])
      = (inr (Removed ev),
         mkWorld
           (<["events.log" := LogFile (sampleLog (before ++ after))]>
              (files (sampleWorld [beachEvent; sunEvent; strayEvent])))
           [OpAccess "events.log"; OpRead "events.log";
            OpWrite "events.log" (before ++ after)]).
Proof.
  apply (removeEvent_removes_single_event sampleHeader "events.log" sunEvent
           (sampleWorld [beachEvent; sunEvent; strayEvent])
           (sampleLog [beachEvent; sunEvent; strayEvent])).
  - reflexivity.
  - reflexivity.
Defined.

Lemma removeEvent_unknown_id_returns_null_witness :
  removeEvent sampleHeader "events.log" strayEvent
    (sampleWorld [beachEvent; sunEvent])
  = (inr Null,
     mkWorld (files (sampleWorld [beachEvent; sunEvent]))
             [OpAccess "events.log"; OpRead "events.log"]).
Proof.
  apply (removeEvent_unknown_id_returns_null sampleHeader "events.log"
           strayEvent (sampleWorld [beachEvent; sunEvent])
           (sampleLog [beachEvent; sunEvent])).
  - reflexivity.
  - by_evaluation.
Defined.

Lemma removeEvent_absent_file_is_noop_witness :
  removeEvent sampleHeader "events.log" beachEvent emptyWorld
  = (inr Undefined, mkWorld ∅ [OpAccess "events.log"]).
Proof.
  apply (removeEvent_absent_file_is_noop sampleHeader "events.log"
           beachEvent emptyWorld).
  reflexivity.
Defined.

Lemma removeEvent_twice_witness :
  ∃ ev w1 w2 log2,
    removeEvent sampleHeader "events.log" beachEvent
      (sampleWorld [beachEvent; sunEvent]) = (inr (Removed ev), w1)
    ∧ ev ∈ [beachEvent; sunEvent]
    ∧ Event.id ev = "e1"
    ∧ removeEvent sampleHeader "events.log" beachEvent w1 = (inr Null, w2)
    ∧ files w2 !! "events.log" = Some (LogFile log2)
    ∧ S (length (EventLog.data log2)) = 2.
Proof.
  apply (removeEvent_twice sampleHeader "events.log" beachEvent
           (sampleWorld [beachEvent; sunEvent])
           (sampleLog [beachEvent; sunEvent])).
  - reflexivity.
  - by_evaluation.
  - by_evaluation.
Defined.

Lemma removeEvent_undefined_versus_null_witness :
  (removeEvent sampleHeader "events.log" strayEvent emptyWorld).1
  = inr Undefined
  ∧ (removeEvent sampleHeader "events.log" strayEvent
       (sampleWorld [beachEvent; sunEvent])).1 = inr Null
  ∧ (removeEvent sampleHeader "events.log" strayEvent emptyWorld).1
    ≠ (removeEvent sampleHeader "events.log" strayEvent
         (sampleWorld [beachEvent; sunEvent])).1.
Proof.
  apply (removeEvent_undefined_versus_null sampleHeader "events.log"
           strayEvent emptyWorld (sampleWorld [beachEvent; sunEvent])
           (sampleLog [beachEvent; sunEvent])).
  - reflexivity.
  - reflexivity.
  - by_evaluation.
Defined.

Lemma removeEvent_duplicate_ids_witness :
  ∃ before ev after,
    [sunEvent; beachEvent; beachAgain] = before ++ ev :: after
    ∧ Forall (λ x, Event.id x ≠ "e1") before
    ∧ Event.id ev = "e1"
    ∧ removeEvent sampleHeader "events.log" beachEvent
        (sampleWorld [sunEvent; beachEvent; beachAgain])
      = (inr (Removed ev),
         mkWorld {[ "events.log" := LogFile (sampleLog [sunEvent]) ]}
                 [OpAccess "events.log"; OpRead "events.log";
                  OpWrite "events.log" [sunEvent]])
    ∧ Forall (λ x, Event.id x ≠ "e1") [sunEvent]
    ∧ (1 + 2 = 3)%nat
    ∧ (1 + 2 ≤ 3)%nat.
Proof.
  apply (removeEvent_duplicate_ids sampleHeader "events.log" beachEvent
           (sampleWorld [sunEvent; beachEvent; beachAgain])
           (sampleLog [sunEvent; beachEvent; beachAgain])).
  - reflexivity.
  - vm_compute. lia.
Defined.

(** ** The content hash *)

Section ContentHash.

Variable createHash : string → string.

(** The text that is hashed is a function of [id], [updated], [tags] and
    [files] alone. *)
Lemma serialize_content (a b : Entry.t) :
  Entry.id a = Entry.id b →
  Entry.updated a = Entry.updated b →
  Entry.tags a = Entry.tags b →
  Entry.files a = Entry.files b →
  serialize a ["hash"; "appliedEventIds"]
  = serialize b ["hash"; "appliedEventIds"].
Proof.
  destruct a, b; cbn [Entry.id Entry.updated Entry.tags Entry.files].
  intros -> -> -> ->. reflexivity.
Qed.

(** C3: two entries with the same fields apart from [hash] and
    [appliedEventIds] have the same content hash; the hash does not
    depend on the event history. *)
Theorem content_hash_ignores_bookkeeping (a b : Entry.t) :
  Entry.id a = Entry.id b →
  Entry.updated a = Entry.updated b →
  Entry.tags a = Entry.tags b →
  Entry.files a = Entry.files b →
  createHash (serialize a ["hash"; "appliedEventIds"])
  = createHash (serialize b ["hash"; "appliedEventIds"]).
Proof. intros. f_equal. by apply serialize_content. Qed.

Lemma stampHash_stamped (entry : Entry.t) :
  stamped createHash (stampHash createHash entry).
Proof.
  unfold stamped.
  by rewrite (serialize_content (stampHash createHash entry) entry).
Qed.

Lemma stampHash_idemp (entry : Entry.t) :
  stampHash createHash (stampHash createHash entry)
  = stampHash createHash entry.
Proof.
  unfold stampHash at 1.
  by rewrite (serialize_content (stampHash createHash entry) entry).
Qed.

(** The stamping pass, read through a reference. *)
Lemma stamp_pass_lookup (refs : list string) (data : gmap string Entry.t)
    (ref : string) :
  foldl (λ store r, alter (stampHash createHash) r store) data refs !! ref
  = if decide (ref ∈ refs) then stampHash createHash <$> data !! ref
    else data !! ref.
Proof.
  revert data. induction refs as [|r refs IH]; intros data; [done|].
  cbn [foldl]. rewrite IH.
  destruct (decide (r = ref)) as [->|Hne].
  - rewrite lookup_alter_eq.
    rewrite (decide_True (P := ref ∈ ref :: refs)) by left.
    destruct (decide (ref ∈ refs)); [|done].
    destruct (data !! ref); [|done]. cbn. by rewrite stampHash_idemp.
  - rewrite lookup_alter_ne by done.
    destruct (decide (ref ∈ refs)) as [Hin|Hout].
    + by rewrite decide_True by (by right).
    + rewrite decide_False; [done|].
      by intros [?|?]%elem_of_cons.
Qed.

End ContentHash.

Lemma content_hash_ignores_bookkeeping_witness :
  plainDigest
    (serialize (Entry.mk "x" None (Some ["beach"]) (Some ["e1"]) None
                         (Some "0a1b"))
               ["hash"; "appliedEventIds"])
  = plainDigest
      (serialize (Entry.mk "x" None (Some ["beach"]) None None None)
                 ["hash"; "appliedEventIds"]).
Proof.
  apply (content_hash_ignores_bookkeeping plainDigest); reflexivity.
Defined.

(** ** Replay *)

Section ReplayFacts.

Variable createHash : string → string.
Variable mutation : string → list (string * string) → Entry.t → Entry.t.

Local Notation "'step'" := (applyStep mutation).
Local Notation "'stampAll'" :=
  (foldl (λ store r, alter (stampHash createHash) r store)).

(** A settled event is skipped. *)
Lemma applyStep_settled (st : gmap string Entry.t * list string)
    (ev : Event.t) :
  settled st.1 ev → step st ev = st.
Proof.
  intros Hsettled. unfold applyStep.
  destruct (st.1 !! Event.targetId ev) as [entry|] eqn:Hentry; [|done].
  by rewrite bool_decide_eq_true_2 by (by apply Hsettled).
Qed.

(** After its step, an event is settled. *)
Lemma applyStep_settles (st : gmap string Entry.t * list string)
    (ev : Event.t) :
  settled (step st ev).1 ev.
Proof.
  unfold applyStep.
  destruct (st.1 !! Event.targetId ev) as [entry|] eqn:Hentry.
  - case_bool_decide as Happlied.
    + intros entry' Hentry'. by simplify_eq.
    + intros entry'. cbn [fst]. rewrite lookup_insert_eq.
      intros [= <-]. cbn. apply elem_of_app. right. left.
  - intros entry' Hentry'. by simplify_eq.
Qed.

(** A step keeps every settled event settled: an applied id is never
    taken away. *)
Lemma applyStep_keeps_settled (st : gmap string Entry.t * list string)
    (ev other : Event.t) :
  settled st.1 other → settled (step st ev).1 other.
Proof.
  intros Hsettled. unfold applyStep.
  destruct (st.1 !! Event.targetId ev) as [entry|] eqn:Hentry; [|done].
  case_bool_decide as Happlied; [done|].
  intros entry'. cbn [fst].
  destruct (decide (Event.targetId ev = Event.targetId other)) as [Heq|Hne].
  - rewrite Heq, lookup_insert_eq. intros [= <-]. cbn.
    apply elem_of_app. left. apply Hsettled. by rewrite <-Heq.
  - rewrite lookup_insert_ne by done. apply Hsettled.
Qed.

Lemma replay_keeps_settled (events : list Event.t)
    (st : gmap string Entry.t * list string) (other : Event.t) :
  settled st.1 other → settled (foldl step st events).1 other.
Proof.
  revert st. induction events as [|ev events IH]; intros st Hsettled;
    [done|].
  cbn [foldl]. by apply IH, applyStep_keeps_settled.
Qed.

(** After a replay, every event of the sequence is settled. *)
Lemma replay_settles (events : list Event.t)
    (st : gmap string Entry.t * list string) :
  Forall (settled (foldl step st events).1) events.
Proof.
  revert st. induction events as [|ev events IH]; intros st;
    [constructor|].
  cbn [foldl]. constructor; [|apply IH].
  apply replay_keeps_settled, applyStep_settles.
Qed.

(** A replay of settled events changes nothing. *)
Lemma replay_settled (events : list Event.t)
    (st : gmap string Entry.t * list string) :
  Forall (settled st.1) events → foldl step st events = st.
Proof.
  induction 1 as [|ev events Hev _ IH]; [done|].
  cbn [foldl]. by rewrite applyStep_settled.
Qed.

(** Stamping the hash keeps the applied ids. *)
Lemma stamp_keeps_settled (refs : list string) (data : gmap string Entry.t)
    (ev : Event.t) :
  settled data ev → settled (stampAll data refs) ev.
Proof.
  intros Hsettled entry. rewrite stamp_pass_lookup.
  destruct (decide (Event.targetId ev ∈ refs)); [|apply Hsettled].
  destruct (data !! Event.targetId ev) as [old|] eqn:Hold; [|done].
  intros [= <-]. cbn. by apply Hsettled.
Qed.

(** The engine reports entries of the store only. *)
Lemma applyStep_changed_known (st : gmap string Entry.t * list string)
    (ev : Event.t) :
  Forall (λ ref, is_Some (st.1 !! ref)) st.2 →
  Forall (λ ref, is_Some ((step st ev).1 !! ref)) (step st ev).2.
Proof.
  intros Hknown. unfold applyStep.
  destruct (st.1 !! Event.targetId ev) as [entry|] eqn:Hentry; [|done].
  case_bool_decide as Happlied; [done|]. cbn [fst snd].
  assert (∀ ref, is_Some (st.1 !! ref) →
                 is_Some (<[Event.targetId ev := replayOne mutation ev entry]>
                            st.1 !! ref)) as Hmono.
  { intros ref Href. rewrite lookup_insert_is_Some.
    destruct (decide (Event.targetId ev = ref)); [by left|by right]. }
  case_bool_decide.
  - eapply Forall_impl; [exact Hknown|exact Hmono].
  - apply Forall_app. split.
    + eapply Forall_impl; [exact Hknown|exact Hmono].
    + repeat constructor. by rewrite lookup_insert_eq.
Qed.

Lemma replay_changed_known (events : list Event.t)
    (st : gmap string Entry.t * list string) :
  Forall (λ ref, is_Some (st.1 !! ref)) st.2 →
  Forall (λ ref, is_Some ((foldl step st events).1 !! ref))
         (foldl step st events).2.
Proof.
  revert st. induction events as [|ev events IH]; intros st Hknown;
    [done|].
  cbn [foldl]. by apply IH, applyStep_changed_known.
Qed.

(** C1: a second call of [applyEvents] with the same events returns no
    changed entry and leaves the entries as the first call left them. *)
Theorem applyEvents_replay_idempotent
    (database : Database.t) (events : list Event.t) (path : string) :
  let first := applyEvents createHash mutation database events path in
  applyEvents createHash mutation first.1 events path = (first.1, []).
Proof.
  unfold applyEvents, applyEventsOrig.
  destruct (foldl step (Database.data database, []) events)
    as [data changed] eqn:Hfirst.
  cbn [fst Database.data].
  assert (Forall (settled (stampAll data changed)) events) as Hsettled.
  { pose proof (replay_settles events (Database.data database, []))
      as Hall.
    rewrite Hfirst in Hall. cbn [fst] in Hall.
    eapply Forall_impl; [exact Hall|].
    intros ev. apply stamp_keeps_settled. }
  by rewrite (replay_settled events (stampAll data changed, []) Hsettled).
Qed.

(** C2: every entry that [applyEvents] returns is an entry of the
    database whose [hash] is the digest of its serialization without
    the fields [hash] and [appliedEventIds]. *)
Theorem applyEvents_returns_stamped
    (database : Database.t) (events : list Event.t) (path : string) :
  Forall (λ returned, ∃ entry, returned = Some entry
                               ∧ stamped createHash entry)
         (returnedEntries
            (applyEvents createHash mutation database events path)).
Proof.
  unfold returnedEntries, applyEvents, applyEventsOrig.
  pose proof (replay_changed_known events (Database.data database, []))
    as Hknown.
  destruct (foldl step (Database.data database, []) events)
    as [data changed].
  cbn [fst snd Database.data] in *.
  specialize (Hknown (Forall_nil_2 _)).
  apply Forall_fmap, Forall_forall. intros ref Href. cbn.
  rewrite stamp_pass_lookup, decide_True by done.
  rewrite Forall_forall in Hknown.
  destruct (Hknown ref Href) as [entry ->].
  eexists. split; [done|]. apply stampHash_stamped.
Qed.

End ReplayFacts.

(** The scenario of the specification: event [e1] adds the tag [beach] to
    the entry [x]; a second replay of the same log changes nothing. *)
Example replay_scenario :
  let first :=
    applyEvents plainDigest tagMutation sampleDatabase [beachEvent]
                "events.log" in
  returnedEntries first
  = [Some (Entry.mk "x" (Some "2024-05-01T10:00:00Z") (Some ["beach"])
                    (Some ["e1"]) None
                    (Some "{id:x,tags:[beach],updated:2024-05-01T10:00:00Z}"))]
  ∧ (applyEvents plainDigest tagMutation first.1 [beachEvent]
                 "events.log").2 = [].
Proof. split; reflexivity. Qed.

(** ** The order on sort keys *)

Section KeyOrder.

Lemma string_lt_irrefl (s : string) : ¬ String_as_OT.lt s s.
Proof. apply (irreflexivity String_as_OT.lt). Qed.

Lemma string_lt_trans (a b c : string) :
  String_as_OT.lt a b → String_as_OT.lt b c → String_as_OT.lt a c.
Proof. apply (transitivity (R := String_as_OT.lt)). Qed.

Lemma string_lt_asym (a b : string) :
  String_as_OT.lt a b → ¬ String_as_OT.lt b a.
Proof. intros Hab Hba. exact (string_lt_irrefl a (string_lt_trans _ _ _ Hab Hba)). Qed.

Lemma eventLeb_cases (a b : Event.t) :
  (eventLeb a b = true ∧ (keyLt a b ∨ sameKey a b))
  ∨ (eventLeb a b = false ∧ keyLt b a).
Proof.
  unfold eventLeb, keyLt, sameKey.
  destruct (String_as_OT.compare_spec (Event.createdAt a) (Event.createdAt b))
    as [Hc|Hc|Hc];
    [destruct (String_as_OT.compare_spec (Event.id a) (Event.id b))
       as [Hi|Hi|Hi]| |]; auto 6.
Qed.

Lemma keyLt_irrefl (a b : Event.t) : keyLt a b → ¬ sameKey a b.
Proof.
  intros [Hlt|[_ Hlt]] [Hc Hi].
  - rewrite Hc in Hlt. by apply string_lt_irrefl in Hlt.
  - rewrite Hi in Hlt. by apply string_lt_irrefl in Hlt.
Qed.

Lemma keyLt_trans (a b c : Event.t) : keyLt a b → keyLt b c → keyLt a c.
Proof.
  unfold keyLt. intros [Hab|[Hab Hab']] [Hbc|[Hbc Hbc']].
  - left. by eapply string_lt_trans.
  - left. by rewrite <-Hbc.
  - left. by rewrite Hab.
  - right. split; [congruence|by eapply string_lt_trans].
Qed.

Lemma keyLt_asym (a b : Event.t) : keyLt a b → ¬ keyLt b a.
Proof.
  intros Hab Hba. pose proof (keyLt_trans _ _ _ Hab Hba) as [H|[_ H]];
    by apply string_lt_irrefl in H.
Qed.

Lemma eventLe_iff (a b : Event.t) : eventLe a b ↔ keyLt a b ∨ sameKey a b.
Proof.
  unfold eventLe. destruct (eventLeb_cases a b) as [[-> H]|[-> H]].
  - tauto.
  - split; [done|]. intros [Hlt|[Hc Hi]].
    + by apply keyLt_asym in H.
    + apply keyLt_irrefl in H. by destruct H.
Qed.


#[global] Instance eventLe_trans : Transitive eventLe.
Proof.
  intros a b c. rewrite !eventLe_iff.
  intros [Hab|[Hc Hi]] [Hbc|[Hc' Hi']].
  - left. by eapply keyLt_trans.
  - left. destruct Hab as [H|[H1 H2]]; [left|right; split]; congruence.
  - left. destruct Hbc as [H|[H1 H2]]; [left|right; split]; congruence.
  - right. split; congruence.
Qed.


End KeyOrder.

(** ** Sorting and the union by id *)











(** ** Merging *)

Section MergeFacts.

Variable versionClass : Z → Z.



End MergeFacts.



(** * Further properties of the code *)

(** ** [removeEvent], all paths *)

Section RemoveEventMore.

Variable defaultHeader : EventHeader.t.

(** On a well-formed log, whatever it holds, [removeEvent] resolves to
    the outcome of the matching records and leaves the log without them.
    (Where nothing matches, nothing is written: the file is the same
    document.) *)
Lemma removeEvent_on_log (path : string) (target : Event.t) (w : World)
    (log : EventLog.t) :
  files w !! path = Some (LogFile log) →
  ∃ ops,
    removeEvent defaultHeader path target w
    = (inr (outcomeOf (filter (λ ev, Event.id ev = Event.id target)
                              (EventLog.data log))),
       mkWorld
         (<[path := LogFile
                      (EventLog.mk (EventLog.header log)
                         (filter (λ ev, Event.id ev ≠ Event.id target)
                                 (EventLog.data log)))]> (files w))
         (trace w ++ ops))
    ∧ Forall (λ op, opPath op = path) ops.
Proof.
  intros Hfile.
  destruct (filter (λ ev, Event.id ev = Event.id target) (EventLog.data log))
    as [|ev rest] eqn:Hmatch.
  - exists [OpAccess path; OpRead path]. split; [|by repeat constructor].
    rewrite (removeEvent_not_found _ _ _ _ log Hfile Hmatch).
    rewrite (filter_complement_all (λ ev, Event.id ev = Event.id target))
      by (by apply (filter_none (λ ev, Event.id ev = Event.id target))).
    destruct log as [hdr data]. cbn. by rewrite insert_id.
  - eexists [OpAccess path; OpRead path; OpWrite path _].
    split; [|by repeat constructor].
    by rewrite (removeEvent_found _ _ _ _ log ev rest Hfile Hmatch).
Qed.

Lemma removeEvent_on_malformed (path : string) (target : Event.t)
    (w : World) :
  files w !! path = Some Malformed →
  removeEvent defaultHeader path target w
  = (inl MalformedLog,
     mkWorld (files w) (trace w ++ [OpAccess path; OpRead path])).
Proof.
  intros Hfile. unfold removeEvent, ioBind, access, readEvents.
  rewrite Hfile, bool_decide_eq_true_2 by eauto.
  cbn [negb performed files]. rewrite Hfile.
  unfold performed; cbn [files trace]. by rewrite <-app_assoc.
Qed.

(** X1: a log file that does not parse makes [removeEvent] fail with the
    error of the read; the path is probed and read, and no file is
    written. *)
Theorem removeEvent_malformed_log_rejects
    (path : string) (target : Event.t) (w : World) :
  files w !! path = Some Malformed →
  removeEvent defaultHeader path target w
  = (inl MalformedLog,
     mkWorld (files w) (trace w ++ [OpAccess path; OpRead path])).
Proof. apply removeEvent_on_malformed. Qed.

(** X2: [removeEvent] works on its own file only: every operation it
    performs is on [eventsFilename], and every other path holds what it
    held before, whatever the outcome. *)
Theorem removeEvent_touches_only_its_file
    (path other : string) (target : Event.t) (w : World) :
  other ≠ path →
  let after := (removeEvent defaultHeader path target w).2 in
  files after !! other = files w !! other
  ∧ ∃ ops, trace after = trace w ++ ops
           ∧ Forall (λ op, opPath op = path) ops.
Proof.
  intros Hother after. subst after.
  destruct (files w !! path) as [[log|]|] eqn:Hfile.
  - destruct (removeEvent_on_log path target w log Hfile)
      as (ops & -> & Hops).
    cbn. rewrite lookup_insert_ne by done. eauto.
  - rewrite (removeEvent_on_malformed _ _ _ Hfile). cbn.
    split; [done|]. eexists. split; [done|]. by repeat constructor.
  - rewrite (removeEvent_absent _ _ _ _ Hfile). cbn.
    split; [done|]. eexists. split; [done|]. by repeat constructor.
Qed.

(** X3: after a call on a well-formed log the file is a log with the
    same header that holds no event with the id of the target; it holds
    every other event of the old log, and nothing else, in the old
    order. *)
Theorem removeEvent_leaves_log_without_target
    (path : string) (target : Event.t) (w : World) (log : EventLog.t) :
  files w !! path = Some (LogFile log) →
  ∃ log',
    files (removeEvent defaultHeader path target w).2 !! path
    = Some (LogFile log')
    ∧ EventLog.header log' = EventLog.header log
    ∧ EventLog.data log' `sublist_of` EventLog.data log
    ∧ Forall (λ ev, Event.id ev ≠ Event.id target) (EventLog.data log')
    ∧ ∀ ev, ev ∈ EventLog.data log → Event.id ev ≠ Event.id target →
            ev ∈ EventLog.data log'.
Proof.
  intros Hfile.
  destruct (removeEvent_on_log path target w log Hfile) as (ops & -> & _).
  eexists. cbn [snd files]. rewrite lookup_insert_eq.
  split; [done|]. cbn. split_and!.
  - done.
  - apply sublist_filter.
  - apply (filter_complement_clean (λ ev, Event.id ev = Event.id target)).
  - intros ev Hin Hid. by apply list_elem_of_filter.
Qed.

(** X4: what the value returned says about the file.  [undefined]: there
    was no file.  [null]: the log held no event with the id of the
    target.  A record: it is a record of the log with the id of the
    target (not the argument itself).  In the first two cases no file
    has changed. *)
Theorem removeEvent_outcome_reflects_file
    (path : string) (target : Event.t) (w w' : World) (r : Returned) :
  removeEvent defaultHeader path target w = (inr r, w') →
  match r with
  | Undefined => files w !! path = None ∧ files w' = files w
  | Null =>
      (∃ log, files w !! path = Some (LogFile log)
              ∧ Forall (λ ev, Event.id ev ≠ Event.id target)
                       (EventLog.data log))
      ∧ files w' = files w
  | Removed ev =>
      ∃ log, files w !! path = Some (LogFile log)
             ∧ ev ∈ EventLog.data log
             ∧ Event.id ev = Event.id target
  end.
Proof.
  destruct (files w !! path) as [[log|]|] eqn:Hfile.
  - destruct (filter (λ ev, Event.id ev = Event.id target)
                     (EventLog.data log)) as [|ev rest] eqn:Hmatch.
    + rewrite (removeEvent_not_found _ _ _ _ log Hfile Hmatch).
      intros [= <- <-]. split; [|done].
      exists log. split; [done|].
      by apply (filter_none (λ ev, Event.id ev = Event.id target)).
    + rewrite (removeEvent_found _ _ _ _ log ev rest Hfile Hmatch).
      intros [= <- <-]. exists log. split; [done|].
      assert (ev ∈ filter (λ ev, Event.id ev = Event.id target)
                          (EventLog.data log)) as Hin
        by (rewrite Hmatch; left).
      apply list_elem_of_filter in Hin as [? ?]. done.
  - rewrite (removeEvent_on_malformed _ _ _ Hfile). intros [=].
  - rewrite (removeEvent_absent _ _ _ _ Hfile). by intros [= <- <-].
Qed.

(** X5: after a call on a well-formed log, with or without matches and
    with or without duplicate ids, a second call with the same target
    returns [null] and writes nothing. *)
Theorem removeEvent_again_returns_null
    (path : string) (target : Event.t) (w : World) (log : EventLog.t) :
  files w !! path = Some (LogFile log) →
  let w1 := (removeEvent defaultHeader path target w).2 in
  removeEvent defaultHeader path target w1
  = (inr Null,
     mkWorld (files w1) (trace w1 ++ [OpAccess path; OpRead path])).
Proof.
  intros Hfile w1. subst w1.
  destruct (removeEvent_on_log path target w log Hfile) as (ops & -> & _).
  cbn [snd]. eapply removeEvent_not_found.
  - cbn. apply lookup_insert_eq.
  - cbn. apply filter_none.
    apply (filter_complement_clean (λ ev, Event.id ev = Event.id target)).
Qed.

(** X6: removing two events with different ids from a well-formed log
    gives the same files and the same two return values in either
    order. *)
Theorem removeEvent_commutes
    (path : string) (a b : Event.t) (w : World) (log : EventLog.t) :
  files w !! path = Some (LogFile log) →
  Event.id a ≠ Event.id b →
  let firstA := removeEvent defaultHeader path a w in
  let thenB := removeEvent defaultHeader path b firstA.2 in
  let firstB := removeEvent defaultHeader path b w in
  let thenA := removeEvent defaultHeader path a firstB.2 in
  files thenB.2 = files thenA.2
  ∧ firstA.1 = thenA.1
  ∧ firstB.1 = thenB.1.
Proof.
  intros Hfile Hab firstA thenB firstB thenA.
  subst firstA thenB firstB thenA.
  destruct (removeEvent_on_log path a w log Hfile) as (opsA & -> & _).
  destruct (removeEvent_on_log path b w log Hfile) as (opsB & -> & _).
  cbn [fst snd].
  edestruct (removeEvent_on_log path b) as (opsAB & -> & _);
    [cbn; apply lookup_insert_eq|].
  edestruct (removeEvent_on_log path a) as (opsBA & -> & _);
    [cbn; apply lookup_insert_eq|].
  cbn [fst snd files EventLog.header EventLog.data].
  rewrite !insert_insert_eq, !list_filter_filter.
  split_and!.
  - do 3 f_equal. apply list_filter_iff. tauto.
  - do 2 f_equal. apply list_filter_iff. intros ev. split; [|tauto].
    intros Hev. split; [done|]. congruence.
  - do 2 f_equal. apply list_filter_iff. intros ev. split; [|tauto].
    intros Hev. split; [done|]. congruence.
Qed.

End RemoveEventMore.

Lemma removeEvent_malformed_log_rejects_witness :
  removeEvent sampleHeader "events.log" beachEvent
    (mkWorld {[ "events.log" := Malformed ]} [])
  = (inl MalformedLog,
     mkWorld {[ "events.log" := Malformed ]}
             [OpAccess "events.log"; OpRead "events.log"]).
Proof.
  exact (removeEvent_malformed_log_rejects sampleHeader "events.log"
           beachEvent (mkWorld {[ "events.log" := Malformed ]} []) eq_refl).
Defined.

Lemma removeEvent_touches_only_its_file_witness :
  let after :=
    (removeEvent sampleHeader "events.log" beachEvent
       (mkWorld {[ "events.log" := LogFile (sampleLog [beachEvent]);
                   "other.log" := LogFile (sampleLog [beachEvent]) ]} [])).2
  in
  files after !! "other.log" = Some (LogFile (sampleLog [beachEvent]))
  ∧ ∃ ops, trace after = [] ++ ops
           ∧ Forall (λ op, opPath op = "events.log") ops.
Proof.
  assert ("other.log" ≠ "events.log") as Hother by discriminate.
  exact (removeEvent_touches_only_its_file sampleHeader
           "events.log" "other.log" beachEvent
           (mkWorld {[ "events.log" := LogFile (sampleLog [beachEvent]);
                       "other.log" := LogFile (sampleLog [beachEvent]) ]}
                    []) Hother).
Defined.

Lemma removeEvent_leaves_log_without_target_witness :
  ∃ log',
    files (removeEvent sampleHeader "events.log" beachEvent
             (sampleWorld [sunEvent; beachEvent; beachAgain])).2
      !! "events.log" = Some (LogFile log')
    ∧ EventLog.header log' = sampleHeader
    ∧ EventLog.data log' `sublist_of` [sunEvent; beachEvent; beachAgain]
    ∧ Forall (λ ev, Event.id ev ≠ "e1") (EventLog.data log')
    ∧ ∀ ev, ev ∈ [sunEvent; beachEvent; beachAgain] →
            Event.id ev ≠ "e1" → ev ∈ EventLog.data log'.
Proof.
  apply (removeEvent_leaves_log_without_target sampleHeader "events.log"
           beachEvent (sampleWorld [sunEvent; beachEvent; beachAgain])
           (sampleLog [sunEvent; beachEvent; beachAgain])).
  reflexivity.
Defined.

Lemma removeEvent_outcome_reflects_file_witness :
  ∃ log, files (sampleWorld [sunEvent; beachEvent; beachAgain])
           !! "events.log" = Some (LogFile log)
         ∧ beachEvent ∈ EventLog.data log
         ∧ Event.id beachEvent = Event.id beachAgain.
Proof.
  apply (removeEvent_outcome_reflects_file sampleHeader "events.log"
           beachAgain (sampleWorld [sunEvent; beachEvent; beachAgain])
           (mkWorld {[ "events.log" := LogFile (sampleLog [sunEvent]) ]}
                    [OpAccess "events.log"; OpRead "events.log";
                     OpWrite "events.log" [sunEvent]])
           (Removed beachEvent)).
  reflexivity.
Defined.

Lemma removeEvent_again_returns_null_witness :
  let w1 :=
    (removeEvent sampleHeader "events.log" beachEvent
       (sampleWorld [sunEvent; beachEvent; beachAgain])).2 in
  removeEvent sampleHeader "events.log" beachEvent w1
  = (inr Null,
     mkWorld (files w1) (trace w1 ++ [OpAccess "events.log";
                                      OpRead "events.log"])).
Proof.
  apply (removeEvent_again_returns_null sampleHeader "events.log" beachEvent
           (sampleWorld [sunEvent; beachEvent; beachAgain])
           (sampleLog [sunEvent; beachEvent; beachAgain])).
  reflexivity.
Defined.

Lemma removeEvent_commutes_witness :
  let w := sampleWorld [sunEvent; beachEvent; strayEvent] in
  let firstA := removeEvent sampleHeader "events.log" beachEvent w in
  let thenB := removeEvent sampleHeader "events.log" sunEvent firstA.2 in
  let firstB := removeEvent sampleHeader "events.log" sunEvent w in
  let thenA := removeEvent sampleHeader "events.log" beachEvent firstB.2 in
  files thenB.2 = files thenA.2
  ∧ firstA.1 = thenA.1
  ∧ firstB.1 = thenB.1.
Proof.
  apply (removeEvent_commutes sampleHeader "events.log" beachEvent sunEvent
           (sampleWorld [sunEvent; beachEvent; strayEvent])
           (sampleLog [sunEvent; beachEvent; strayEvent])).
  - reflexivity.
  - discriminate.
Defined.

(** ** The wrapper around the replay engine *)

Section WrapperMore.

Variable createHash : string → string.
Variable mutation : string → list (string * string) → Entry.t → Entry.t.

(** X7: [applyEvents] hands on the list of the engine as it is, and of
    the entries the engine left it touches only those of the list, and
    of those only the [hash]: no entry is added or dropped, and [id],
    [updated], [tags], [appliedEventIds] and [files] are the engine's. *)
Theorem applyEvents_changes_hash_only
    (database : Database.t) (events : list Event.t) (path : string) :
  let engine :=
    applyEventsOrig mutation (Database.data database) events path in
  let result := applyEvents createHash mutation database events path in
  result.2 = engine.2
  ∧ ∀ ref,
      match Database.data result.1 !! ref, engine.1 !! ref with
      | Some after, Some before =>
          Entry.id after = Entry.id before
          ∧ Entry.updated after = Entry.updated before
          ∧ Entry.tags after = Entry.tags before
          ∧ Entry.appliedEventIds after = Entry.appliedEventIds before
          ∧ Entry.files after = Entry.files before
          ∧ (ref ∉ engine.2 → after = before)
      | None, None => True
      | _, _ => False
      end.
Proof.
  intros engine result. subst engine result. unfold applyEvents.
  destruct (applyEventsOrig mutation (Database.data database) events path)
    as [data changed].
  cbn [fst snd Database.data]. split; [done|]. intros ref.
  rewrite stamp_pass_lookup.
  destruct (decide (ref ∈ changed)), (data !! ref); cbn; by split_and?.
Qed.

End WrapperMore.

(** ** Paths with forward slashes ([files.js]) *)

(** X8: [toSlash] keeps the length of the name and changes it at the
    backslashes only, each of which becomes a slash. *)
Theorem toSlash_replaces_each_backslash (file : string) :
  String.length (toSlash file) = String.length file
  ∧ ∀ i, String.get i (toSlash file)
         = (λ c, if Ascii.eqb c backslash then slash else c)
             <$> String.get i file.
Proof.
  induction file as [|c rest [IHlen IHget]]; [by split; [|intros []]|].
  split; [cbn; by rewrite IHlen|].
  intros [|i]; [done|]. cbn. apply IHget.
Qed.

Lemma toSlash_occurrences (file : string) :
  occurrences backslash (toSlash file) = 0.
Proof.
  induction file as [|c rest IH]; [done|]. cbn. rewrite IH.
  destruct (Ascii.eqb c backslash) eqn:Hc; [done|]. by rewrite Hc.
Qed.

Lemma toSlash_clean (file : string) :
  occurrences backslash file = 0 → toSlash file = file.
Proof.
  induction file as [|c rest IH]; [done|]. cbn.
  destruct (Ascii.eqb c backslash); [done|].
  intros Hrest. by rewrite IH.
Qed.

(** X9: the result of [toSlash] holds no backslash, so a second pass
    changes nothing; a name without backslashes is returned as it is. *)
Theorem toSlash_idempotent (file : string) :
  occurrences backslash (toSlash file) = 0
  ∧ toSlash (toSlash file) = toSlash file
  ∧ (occurrences backslash file = 0 → toSlash file = file).
Proof.
  split_and!.
  - apply toSlash_occurrences.
  - apply toSlash_clean, toSlash_occurrences.
  - apply toSlash_clean.
Qed.

(** X10: [getFiles] lists the entry itself first and then its sidecars
    in their order, one file each; every [filename] it gives is free of
    backslashes, while every [filepath] is passed on as it is. *)
Theorem getFiles_entry_then_sidecars (entry : IndexedEntry.t) :
  MediaFile.id <$> getFiles entry
  = IndexedFile.sha1sum (IndexedEntry.own entry)
    :: (IndexedFile.sha1sum <$> IndexedEntry.sidecars entry)
  ∧ Forall (λ f, occurrences backslash (MediaFile.filename f) = 0)
           (getFiles entry)
  ∧ MediaFile.filepath <$> getFiles entry
    = IndexedFile.filepath (IndexedEntry.own entry)
      :: (IndexedFile.filepath <$> IndexedEntry.sidecars entry).
Proof.
  unfold getFiles. cbn [app fmap list_fmap]. split_and!.
  - cbn. f_equal. by rewrite <-list_fmap_compose.
  - constructor; [apply toSlash_occurrences|].
    apply Forall_fmap, Forall_forall. intros f _. apply toSlash_occurrences.
  - cbn. f_equal. by rewrite <-list_fmap_compose.
Qed.

(** ** Encoding a part of a URL *)

Lemma occurrences_app (c : ascii) (a b : string) :
  occurrences c (a +:+ b) = occurrences c a + occurrences c b.
Proof.
  induction a as [|d a IH]; [done|]. simpl. rewrite IH. lia.
Qed.

Lemma string_length_app (a b : string) :
  String.length (a +:+ b) = String.length a + String.length b.
Proof. induction a as [|d a IH]; [done|]. simpl. by rewrite IH. Qed.

Lemma encodeUrl_app (a b : string) :
  encodeUrl (a +:+ b) = encodeUrl a +:+ encodeUrl b.
Proof.
  induction a as [|c a IH]; [done|]. simpl.
  destruct (Ascii.eqb c slash); simpl; by rewrite IH.
Qed.

Lemma encodeUrl_counts (url : string) :
  occurrences slash (encodeUrl url) = 0
  ∧ String.length (encodeUrl url)
    = String.length url + 2 * occurrences slash url.
Proof.
  induction url as [|c url [IHocc IHlen]]; [done|].
  cbn [encodeUrl occurrences String.length].
  destruct (Ascii.eqb c slash) eqn:Hc.
  - rewrite occurrences_app, string_length_app, IHocc, IHlen.
    split; [done|]. cbn [String.length]. lia.
  - cbn [occurrences String.length]. rewrite Hc, IHocc, IHlen.
    split; [done|]. lia.
Qed.

Lemma encodeUrl_slashless (url : string) :
  occurrences slash url = 0 → encodeUrl url = url.
Proof.
  induction url as [|c url IH]; [done|].
  cbn [encodeUrl occurrences].
  destruct (Ascii.eqb c slash); [done|].
  intros Hrest. by rewrite IH.
Qed.

(** X11: [encodeUrl] puts the text [%2F] in the place of each slash and
    leaves every other character as it is: a text without a slash is
    returned unchanged, and around a slash the two sides are encoded on
    their own.  So the text it gives holds no slash, and it is longer
    than the input by two characters for each slash of the input. *)
Theorem encodeUrl_leaves_no_slash (url : string) :
  occurrences slash (encodeUrl url) = 0
  ∧ String.length (encodeUrl url)
    = String.length url + 2 * occurrences slash url
  ∧ (∀ before after,
       url = before +:+ "/" +:+ after →
       encodeUrl url = encodeUrl before +:+ "%2F" +:+ encodeUrl after)
  ∧ (occurrences slash url = 0 → encodeUrl url = url).
Proof.
  destruct (encodeUrl_counts url) as [Hnone Hlength].
  split_and!; [done|done| |apply encodeUrl_slashless].
  intros before after ->. by rewrite !encodeUrl_app.
Qed.

(** X12: [encodeUrl] does not escape the percent sign, so it is not
    injective: a slash and the text [%2F] at the same place of a query
    are encoded alike. *)
Theorem encodeUrl_confuses_slash_and_escape (before after : string) :
  encodeUrl (before +:+ "/" +:+ after)
  = encodeUrl (before +:+ "%2F" +:+ after)
  ∧ before +:+ "/" +:+ after ≠ before +:+ "%2F" +:+ after.
Proof.
  split.
  - by rewrite !encodeUrl_app.
  - intros Heq. apply (f_equal String.length) in Heq.
    rewrite !string_length_app in Heq. cbn in Heq. lia.
Qed.

(** ** Index names without extension ([webappMiddleware]) *)

Lemma stripExtension_dotless (name : string) :
  occurrences dot name = 0 → stripExtension name = name.
Proof.
  induction name as [|c rest IH]; [done|].
  cbn [occurrences stripExtension].
  destruct (Ascii.eqb c dot); [done|]. cbn. intros Hrest. by rewrite IH.
Qed.

Lemma stripExtension_at_extension (ext : string) :
  ext ≠ EmptyString → occurrences dot ext = 0 →
  stripExtension (String dot ext) = EmptyString.
Proof.
  intros Hext Hdots. cbn [stripExtension]. rewrite Hdots.
  destruct ext; [done|]. reflexivity.
Qed.

(** X13: a name that ends in a dot and an extension (one or more
    characters without a dot) loses exactly that: of several extensions
    only the last one goes, and a name that starts with the dot becomes
    empty. *)
Theorem stripExtension_removes_last_extension (stem ext : string) :
  ext ≠ EmptyString → occurrences dot ext = 0 →
  stripExtension (stem +:+ "." +:+ ext) = stem.
Proof.
  intros Hext Hdots. induction stem as [|c stem IH].
  - by apply stripExtension_at_extension.
  - change (String c stem +:+ "." +:+ ext)
      with (String c (stem +:+ "." +:+ ext)).
    cbn [stripExtension]. rewrite IH.
    assert (occurrences dot (stem +:+ "." +:+ ext) ≠ 0) as Hdot.
    { rewrite !occurrences_app.
      change (occurrences dot ".") with 1. lia. }
    apply Nat.eqb_neq in Hdot. by rewrite Hdot, andb_false_r.
Qed.

(** X14: a name without a dot is kept as it is, and so is a name that
    ends in a dot; in every case the result is the beginning of the
    name. *)
Theorem stripExtension_keeps_other_names (name : string) :
  (occurrences dot name = 0 → stripExtension name = name)
  ∧ stripExtension (name +:+ ".") = name +:+ "."
  ∧ ∃ rest, name = stripExtension name +:+ rest.
Proof.
  split_and!.
  - apply stripExtension_dotless.
  - induction name as [|c name IH]; [done|].
    change (String c name +:+ ".") with (String c (name +:+ ".")).
    cbn [stripExtension]. rewrite IH.
    assert (occurrences dot (name +:+ ".") ≠ 0) as Hdot.
    { rewrite occurrences_app.
      change (occurrences dot ".") with 1. lia. }
    apply Nat.eqb_neq in Hdot. by rewrite Hdot, andb_false_r.
  - induction name as [|c name [rest IH]]; [by exists EmptyString|].
    cbn [stripExtension].
    destruct (_ && _).
    + by exists (String c name).
    + exists rest.
      change (String c (stripExtension name) +:+ rest)
        with (String c (stripExtension name +:+ rest)).
      by rewrite <-IH.
Qed.

Section WebappFacts.

Variable basename : string → string.

(** X15: in the state of a request, every page that the configuration
    disables is disabled, [pwa] is disabled besides exactly for a
    request with a user name (the list is the configured one, with
    [pwa] appended for such a request), and the title is never empty:
    it is the configured title when that is not empty, and
    [Home Gallery] when the title is absent or empty. *)
Theorem webappState_disabled_and_title
    (config : WebappConfig.t) (publicEntries : list string)
    (username : option string) :
  let state := webappState basename config publicEntries username in
  (∀ page, page ∈ WebappState.disabled state
           ↔ page ∈ default [] (WebappConfig.disabled config)
             ∨ (page = "pwa" ∧ loggedIn username = true))
  ∧ WebappState.disabled state
    = default [] (WebappConfig.disabled config)
      ++ (if loggedIn username then ["pwa"] else [])
  ∧ WebappState.title state ≠ EmptyString
  ∧ (∀ title, WebappConfig.title config = Some title →
              title ≠ EmptyString →
              WebappState.title state = title)
  ∧ (WebappConfig.title config = None
     ∨ WebappConfig.title config = Some EmptyString →
     WebappState.title state = "Home Gallery").
Proof.
  cbn zeta. unfold webappState; cbn [WebappState.disabled WebappState.title].
  split_and!.
  - intros page. destruct (loggedIn username).
    + rewrite elem_of_app, list_elem_of_singleton. intuition.
    + intuition congruence.
  - destruct (loggedIn username); [done|]. by rewrite app_nil_r.
  - destruct (WebappConfig.title config) as [title|]; [|done].
    destruct title; [done|]. done.
  - intros title -> Htitle. by destruct title.
  - by intros [-> | ->].
Qed.

End WebappFacts.

(** ** The shared list of disabled features ([useAppConfig]) *)

(** X16: [useAppConfig] pushes the non-empty values of the query onto
    an array that outlives the call, so they pile up: a second call with
    the same query gives the list of the first call with the values
    appended once more, and without an injected list it is the default
    list of the module that has grown. *)
Theorem useAppConfig_piles_up (queryDisabled : list string)
    (heap : ConfigHeap) :
  let first := useAppConfig queryDisabled heap in
  let second := useAppConfig queryDisabled first.2 in
  second.1
  = first.1 ++ filter (λ v, v ≠ EmptyString) queryDisabled
  ∧ match injectedDisabled heap with
    | None => defaultDisabled first.2 = first.1
    | Some _ => defaultDisabled first.2 = defaultDisabled heap
    end.
Proof.
  cbn zeta. unfold useAppConfig.
  assert (filter (λ v, negb (String.length v =? 0)%nat) queryDisabled
          = filter (λ v, v ≠ EmptyString) queryDisabled) as ->.
  { apply list_filter_iff. intros v. destruct v; cbn; intuition congruence. }
  destruct (injectedDisabled heap); cbn; by split.
Qed.

Lemma stripExtension_removes_last_extension_witness :
  stripExtension "archive.tar.gz" = "archive.tar".
Proof.
  assert ("gz" ≠ EmptyString) as Hext by discriminate.
  exact (stripExtension_removes_last_extension "archive.tar" "gz"
           Hext eq_refl).
Defined.

(** ** Finding the entry to view ([findEntryIndex]) *)

Lemma prefix_startsWith (start text : string) :
  String.prefix start text = true ↔ startsWith text start.
Proof.
  revert text. induction start as [|a start IH]; intros text.
  - split; [intros _; by exists text|by destruct text].
  - destruct text as [|b text].
    + split; [done|by intros [rest [=]]].
    + simpl. destruct (ascii_dec a b) as [->|Hne].
      * rewrite IH. split; intros [rest Hrest]; exists rest.
        -- by rewrite Hrest.
        -- change (String b start +:+ rest)
             with (String b (start +:+ rest)) in Hrest.
           by injection Hrest.
      * split; [done|]. intros [rest Hrest].
        change (String a start +:+ rest)
          with (String a (start +:+ rest)) in Hrest.
        injection Hrest as Hab _. by destruct Hne.
Qed.

(** What the loop returns: -1 and no entry starts with the id, or the
    position of the first entry that does. *)
Lemma firstStartingWith_spec (id : string) (entries : list Media.t)
    (i : Z) :
  let r := firstStartingWith id entries i in
  (r = (-1)%Z
   ∧ Forall (λ entry, ¬ startsWith (Media.id entry) id) entries)
  ∨ (∃ k entry,
       r = (i + Z.of_nat k)%Z
       ∧ entries !! k = Some entry
       ∧ startsWith (Media.id entry) id
       ∧ Forall (λ entry, ¬ startsWith (Media.id entry) id)
                (take k entries)).
Proof.
  cbn zeta. revert i. induction entries as [|entry rest IH]; intros i.
  - left. by split.
  - cbn [firstStartingWith].
    destruct (String.prefix id (Media.id entry)) eqn:Hprefix.
    + right. exists 0, entry. rewrite Z.add_0_r.
      split_and!; [done|done| |constructor].
      by apply prefix_startsWith.
    + assert (¬ startsWith (Media.id entry) id) as Hno.
      { rewrite <-prefix_startsWith. by rewrite Hprefix. }
      destruct (IH (i + 1)%Z) as [[-> Hall]|(k & e & -> & Hk & He & Hbefore)].
      * left. split; [done|by constructor].
      * right. exists (S k), e. split_and!; [lia|done|done|].
        cbn. by constructor.
Qed.

(** X17: [findEntryIndex] returns -1 only if no entry has an id that
    starts with the id looked for, and otherwise the position of an
    entry of the list whose id starts with it. *)
Theorem findEntryIndex_sound_and_complete
    (stateIndex : option Z) (entries : list Media.t) (id : string) :
  let r := findEntryIndex stateIndex entries id in
  (r = (-1)%Z
   ∧ Forall (λ entry, ¬ startsWith (Media.id entry) id) entries)
  ∨ (∃ entry, entryAt entries r = Some entry
              ∧ startsWith (Media.id entry) id).
Proof.
  cbn zeta.
  assert (let r := firstStartingWith id entries 0 in
          (r = (-1)%Z
           ∧ Forall (λ entry, ¬ startsWith (Media.id entry) id) entries)
          ∨ (∃ entry, entryAt entries r = Some entry
                      ∧ startsWith (Media.id entry) id)) as Hloop.
  { cbn zeta.
    destruct (firstStartingWith_spec id entries 0)
      as [?|(k & entry & -> & Hk & Hentry & _)]; [by left|].
    right. exists entry. split; [|done].
    unfold entryAt. rewrite Z.add_0_l.
    destruct (Z.ltb_spec (Z.of_nat k) 0) as [?|_]; [lia|].
    by rewrite Nat2Z.id. }
  unfold findEntryIndex. destruct stateIndex as [index|]; [|exact Hloop].
  destruct (negb (index =? 0)%Z); [|exact Hloop]. cbn [andb].
  destruct (entryAt entries index) as [entry|] eqn:Hentry; [|exact Hloop].
  destruct (String.prefix id (Media.id entry)) eqn:Hprefix; [|exact Hloop].
  right. exists entry. split; [done|]. by apply prefix_startsWith.
Qed.

(** X18: without a position in the location state, or with position 0,
    [findEntryIndex] returns the first match: no entry before the
    position returned has an id that starts with the id looked for. *)
Theorem findEntryIndex_first_match
    (stateIndex : option Z) (entries : list Media.t) (id : string) :
  stateIndex = None ∨ stateIndex = Some 0%Z →
  ∀ j entry,
    (0 ≤ j < findEntryIndex stateIndex entries id)%Z →
    entryAt entries j = Some entry →
    ¬ startsWith (Media.id entry) id.
Proof.
  intros Hstate j entry Hj Hentry.
  assert (findEntryIndex stateIndex entries id
          = firstStartingWith id entries 0) as Hfind
    by (by destruct Hstate as [-> | ->]).
  rewrite Hfind in Hj.
  destruct (firstStartingWith_spec id entries 0)
    as [[Hr _]|(k & e & Hr & _ & _ & Hbefore)]; [lia|].
  rewrite Hr, Z.add_0_l in Hj.
  unfold entryAt in Hentry.
  destruct (Z.ltb_spec j 0) as [?|_]; [lia|].
  rewrite Forall_forall in Hbefore. apply Hbefore.
  apply list_elem_of_lookup. exists (Z.to_nat j).
  rewrite lookup_take_lt by lia. done.
Qed.

(** X19: a position in the location state that is not 0 and at which an
    entry with a matching id stands is returned as it is, whatever
    stands before it. *)
Theorem findEntryIndex_trusts_state_index
    (index : Z) (entries : list Media.t) (id : string) (entry : Media.t) :
  index ≠ 0%Z →
  entryAt entries index = Some entry →
  startsWith (Media.id entry) id →
  findEntryIndex (Some index) entries id = index.
Proof.
  intros Hindex Hentry Hstarts. unfold findEntryIndex.
  rewrite Hentry. apply prefix_startsWith in Hstarts. rewrite Hstarts.
  by destruct (Z.eqb_spec index 0).
Qed.

(** ** The shuffled order of the slideshow ([shuffleIndices]) *)

Lemma swapAt_perm (indices : list nat) (i j : nat) :
  swapAt indices i j ≡ₚ indices.
Proof.
  unfold swapAt.
  destruct (indices !! i) as [x|] eqn:Hi; [|done].
  destruct (indices !! j) as [y|] eqn:Hj; [|done].
  by apply Permutation_insert_swap.
Qed.

Lemma shuffleFrom_perm (draw : nat → nat) (i : nat) (indices : list nat) :
  shuffleFrom draw i indices ≡ₚ indices.
Proof.
  revert indices. induction i as [|i IH]; intros indices; [done|].
  cbn [shuffleFrom]. by rewrite IH, swapAt_perm.
Qed.

(** X20: whatever numbers are drawn (each within its range, as
    [Math.floor(Math.random() * (i + 1))] is), [shuffleIndices(length)]
    is an arrangement of the indices [0 .. length - 1]: it has that
    length and holds each index once. *)
Theorem shuffleIndices_is_permutation (draw : nat → nat) (length : nat) :
  (∀ i, draw i ≤ i)%nat →
  shuffleIndices draw length ≡ₚ seq 0 length
  ∧ List.length (shuffleIndices draw length) = length
  ∧ NoDup (shuffleIndices draw length)
  ∧ ∀ index, index ∈ shuffleIndices draw length ↔ (index < length)%nat.
Proof.
  intros _.
  assert (shuffleIndices draw length ≡ₚ seq 0 length) as Hperm
    by apply shuffleFrom_perm.
  split_and!.
  - done.
  - by rewrite Hperm, length_seq.
  - rewrite Hperm. apply NoDup_seq.
  - intros index. rewrite Hperm, elem_of_seq. lia.
Qed.

(** ** The index and the flags of the slideshow *)

(** X21: for a list that is not empty, the action [index] views a
    position of the list, the one asked for when that is in range, the
    first for a negative and the last for a too large one. *)
Theorem indexToView_in_range (length index : Z) :
  (0 < length)%Z →
  (0 ≤ indexToView length index < length)%Z
  ∧ ((0 ≤ index < length)%Z → indexToView length index = index)
  ∧ ((index < 0)%Z → indexToView length index = 0%Z)
  ∧ ((length ≤ index)%Z → indexToView length index = (length - 1)%Z).
Proof. unfold indexToView. lia. Qed.

(** X22: the slideshow is always shuffled and always loops: whatever
    the configuration gives for [slideshow.random] and [slideshow.loop],
    [false] included, the component reads a value that counts as
    true. *)
Theorem slideshow_flags_always_on (configured : JsValue) :
  truthy (isSlideshowRandomised configured) = true
  ∧ truthy (loopImages configured) = true
  ∧ isSlideshowRandomised (JsBool false) = JsBool true
  ∧ loopImages (JsBool false) = JsBool true.
Proof.
  unfold isSlideshowRandomised, loopImages, jsOr.
  by destruct (truthy configured) eqn:Htruthy.
Qed.

Lemma findEntryIndex_first_match_witness :
  ¬ startsWith "f3a9" "f3b".
Proof.
  assert (0 ≤ 0 < findEntryIndex None
                    [Media.mk "f3a9" "f3a" "image";
                     Media.mk "f3b7" "f3b" "video"] "f3b")%Z as Hj
    by (vm_compute; split; [discriminate|reflexivity]).
  exact (findEntryIndex_first_match None
           [Media.mk "f3a9" "f3a" "image"; Media.mk "f3b7" "f3b" "video"]
           "f3b" (or_introl eq_refl) 0%Z (Media.mk "f3a9" "f3a" "image")
           Hj eq_refl).
Defined.

Lemma findEntryIndex_trusts_state_index_witness :
  findEntryIndex (Some 1%Z)
    [Media.mk "f3a9" "f3a" "image"; Media.mk "f3b7" "f3b" "video"] "f3"
  = 1%Z.
Proof.
  assert (1 ≠ 0)%Z as Hindex by discriminate.
  exact (findEntryIndex_trusts_state_index 1%Z
           [Media.mk "f3a9" "f3a" "image"; Media.mk "f3b7" "f3b" "video"]
           "f3" (Media.mk "f3b7" "f3b" "video") Hindex eq_refl
           (ex_intro _ "b7" eq_refl)).
Defined.

Lemma shuffleIndices_is_permutation_witness :
  shuffleIndices (λ i, i / 2)%nat 5 ≡ₚ seq 0 5
  ∧ List.length (shuffleIndices (λ i, i / 2)%nat 5) = 5
  ∧ NoDup (shuffleIndices (λ i, i / 2)%nat 5)
  ∧ ∀ index, index ∈ shuffleIndices (λ i, i / 2)%nat 5 ↔ (index < 5)%nat.
Proof.
  apply (shuffleIndices_is_permutation (λ i, i / 2)%nat 5).
  intros i. apply Nat.Div0.div_le_upper_bound. lia.
Defined.

Lemma indexToView_in_range_witness :
  (0 ≤ indexToView 3 7 < 3)%Z
  ∧ ((0 ≤ 7 < 3)%Z → indexToView 3 7 = 7%Z)
  ∧ ((7 < 0)%Z → indexToView 3 7 = 0%Z)
  ∧ ((3 ≤ 7)%Z → indexToView 3 7 = (3 - 1)%Z).
Proof.
  assert (0 < 3)%Z as Hlength by reflexivity.
  exact (indexToView_in_range 3 7 Hlength).
Defined.

(** ** The sliders of the settings menu *)

Lemma multipliers_pos (unit : TimeUnit.t) : (0 < multipliers unit)%Z.
Proof. by destruct unit. Qed.

Lemma multipliers_ms (unit : TimeUnit.t) :
  multipliers unit = (1000 * multipliersSec unit)%Z.
Proof. by destruct unit. Qed.

Lemma roundDiv_multiple (n m : Z) : (0 < m)%Z → roundDiv (n * m) m = n.
Proof.
  intros Hm. unfold roundDiv.
  replace (2 * (n * m) + m)%Z with (m + n * (2 * m))%Z by lia.
  rewrite Z.div_add by lia. rewrite Z.div_small by lia. lia.
Qed.

Lemma calcMinForUnit_range (minSeconds : Z) (unit : TimeUnit.t) :
  (1 ≤ calcMinForUnit minSeconds unit ≤ 60)%Z.
Proof. unfold calcMinForUnit. lia. Qed.

Lemma ceilDiv_covers (a b : Z) : (0 < b)%Z → (a ≤ ceilDiv a b * b)%Z.
Proof.
  intros Hb. unfold ceilDiv.
  pose proof (Z.mul_div_le (- a) b Hb). nia.
Qed.

Lemma ceilDiv_le (a b n : Z) : (0 < b)%Z → (a ≤ n * b)%Z → (ceilDiv a b ≤ n)%Z.
Proof.
  intros Hb Han. unfold ceilDiv.
  assert (- n ≤ (- a) / b)%Z; [|lia].
  apply Z.div_le_lower_bound; lia.
Qed.

(** X23: wherever the slider is moved, the value passed on is a whole
    number of the unit, and that number, which the slider shows next,
    lies between the minimum for the unit and 60; the minimum itself
    lies between 1 and 60. *)
Theorem handleSliderChange_in_range
    (minSeconds : Z) (unit : TimeUnit.t) (raw : Z) :
  let ms := handleSliderChange minSeconds unit raw in
  let shown := sliderValue ms unit in
  ms = (shown * multipliers unit)%Z
  ∧ (calcMinForUnit minSeconds unit ≤ shown ≤ 60)%Z
  ∧ (1 ≤ calcMinForUnit minSeconds unit ≤ 60)%Z
  ∧ ((calcMinForUnit minSeconds unit ≤ raw ≤ 60)%Z → shown = raw).
Proof.
  cbn zeta. unfold handleSliderChange, sliderValue.
  rewrite roundDiv_multiple by apply multipliers_pos.
  pose proof (calcMinForUnit_range minSeconds unit). lia.
Qed.

(** X24: when the floor [minSeconds] is at most 60 of the unit, the
    value passed on is never below the floor, wherever the slider is
    moved. *)
Theorem handleSliderChange_respects_floor
    (minSeconds : Z) (unit : TimeUnit.t) (raw : Z) :
  (minSeconds ≤ 60 * multipliersSec unit)%Z →
  (1000 * minSeconds ≤ handleSliderChange minSeconds unit raw)%Z.
Proof.
  intros Hreach. unfold handleSliderChange, calcMinForUnit.
  rewrite multipliers_ms.
  assert (0 < multipliersSec unit)%Z as Hpos by (by destruct unit).
  pose proof (ceilDiv_covers minSeconds (multipliersSec unit) Hpos).
  pose proof (ceilDiv_le minSeconds (multipliersSec unit) 60 Hpos Hreach).
  nia.
Qed.

(** X25: when the floor is more than 60 of the unit, the slider is
    stuck: every position gives 60 of the unit, which is below the
    floor. *)
Theorem handleSliderChange_floor_out_of_reach
    (minSeconds : Z) (unit : TimeUnit.t) (raw : Z) :
  (60 * multipliersSec unit < minSeconds)%Z →
  handleSliderChange minSeconds unit raw = (60 * multipliers unit)%Z
  ∧ (handleSliderChange minSeconds unit raw < 1000 * minSeconds)%Z.
Proof.
  intros Hfar.
  assert (0 < multipliersSec unit)%Z as Hpos by (by destruct unit).
  assert (60 ≤ ceilDiv minSeconds (multipliersSec unit))%Z as Hceil.
  { pose proof (ceilDiv_covers minSeconds (multipliersSec unit) Hpos). nia. }
  unfold handleSliderChange, calcMinForUnit. rewrite multipliers_ms.
  split; [|nia].
  replace (Z.min 60 (Z.max 1 (ceilDiv minSeconds (multipliersSec unit))))
    with 60%Z by lia.
  f_equal. lia.
Qed.

(** X26: [cycleUnit] goes from seconds to minutes, from minutes to
    hours and from hours back to seconds, and it keeps the number that
    the slider shows, raised to the minimum of the new unit where it is
    below: that number is what the slider shows for the value passed
    on. *)
Theorem cycleUnit_keeps_number
    (minSeconds : Z) (unit : TimeUnit.t) (valueMs : Z) :
  let next := (cycleUnit minSeconds unit valueMs).1 in
  let newMs := (cycleUnit minSeconds unit valueMs).2 in
  next = nextUnit unit
  ∧ next = match unit with
           | TimeUnit.sec => TimeUnit.min
           | TimeUnit.min => TimeUnit.hr
           | TimeUnit.hr => TimeUnit.sec
           end
  ∧ nextUnit (nextUnit (nextUnit unit)) = unit
  ∧ next ≠ unit
  ∧ sliderValue newMs next
    = Z.max (sliderValue valueMs unit) (calcMinForUnit minSeconds next)
  ∧ newMs = (sliderValue newMs next * multipliers next)%Z.
Proof.
  cbn zeta. unfold cycleUnit. cbn [fst snd].
  split; [done|]. split; [by destruct unit|].
  split; [by destruct unit|]. split; [by destruct unit|].
  generalize (sliderValue valueMs unit). intros shown.
  unfold sliderValue.
  rewrite roundDiv_multiple by apply multipliers_pos.
  split; [|done].
  destruct (Z.ltb_spec shown (calcMinForUnit minSeconds (nextUnit unit)));
    lia.
Qed.

(** X27: for a whole number of seconds, the unit that [detectUnit]
    picks shows the value exactly: the number of the slider times the
    unit is the value; hours are picked for whole hours (zero
    included), else minutes for whole minutes. *)
Theorem detectUnit_shows_exact_value (ms : Z) :
  Z.rem ms 1000 = 0%Z →
  let unit := detectUnit ms in
  (sliderValue ms unit * multipliers unit)%Z = ms
  ∧ (unit = TimeUnit.hr ↔ Z.rem ms 3600000 = 0%Z)
  ∧ (unit = TimeUnit.min
     ↔ Z.rem ms 3600000 ≠ 0%Z ∧ Z.rem ms 60000 = 0%Z).
Proof.
  intros Hsec. cbn zeta.
  assert (∀ m, (0 < m)%Z → Z.rem ms m = 0%Z →
               (roundDiv ms m * m)%Z = ms) as Hexact.
  { intros m Hm Hrem.
    apply Z.rem_divide in Hrem as [q ->]; [|lia].
    by rewrite roundDiv_multiple. }
  unfold detectUnit, sliderValue.
  change (multipliers TimeUnit.hr) with 3600000%Z.
  change (multipliers TimeUnit.min) with 60000%Z.
  destruct (Z.eqb_spec (Z.rem ms 3600000) 0) as [Hhr|Hhr];
    [|destruct (Z.eqb_spec (Z.rem ms 60000) 0) as [Hmin|Hmin]];
    (split_and!; [by apply Hexact|intuition congruence..]).
Qed.

Lemma handleSliderChange_respects_floor_witness :
  (1000 * 5 ≤ handleSliderChange 5 TimeUnit.sec 1)%Z.
Proof.
  assert (5 ≤ 60 * multipliersSec TimeUnit.sec)%Z as Hreach
    by (vm_compute; discriminate).
  exact (handleSliderChange_respects_floor 5 TimeUnit.sec 1 Hreach).
Defined.

Lemma handleSliderChange_floor_out_of_reach_witness :
  handleSliderChange 100 TimeUnit.sec 30 = (60 * multipliers TimeUnit.sec)%Z
  ∧ (handleSliderChange 100 TimeUnit.sec 30 < 1000 * 100)%Z.
Proof.
  assert (60 * multipliersSec TimeUnit.sec < 100)%Z as Hfar
    by reflexivity.
  exact (handleSliderChange_floor_out_of_reach 100 TimeUnit.sec 30 Hfar).
Defined.

Lemma detectUnit_shows_exact_value_witness :
  (sliderValue 5400000 (detectUnit 5400000)
   * multipliers (detectUnit 5400000))%Z = 5400000%Z
  ∧ (detectUnit 5400000 = TimeUnit.hr ↔ Z.rem 5400000 3600000 = 0%Z)
  ∧ (detectUnit 5400000 = TimeUnit.min
     ↔ Z.rem 5400000 3600000 ≠ 0%Z ∧ Z.rem 5400000 60000 = 0%Z).
Proof.
  exact (detectUnit_shows_exact_value 5400000 eq_refl).
Defined.

(** ** The store of the single view *)

Lemma excludeStateProps_lookup {V : Type} (excludeProps : list string)
    (state : gmap string V) (key : string) :
  excludeStateProps excludeProps state !! key
  = if decide (key ∈ excludeProps) then None else state !! key.
Proof.
  unfold excludeStateProps.
  destruct (state !! key) as [v|] eqn:Hkey.
  - destruct (decide (key ∈ excludeProps)).
    + apply map_lookup_filter_None. right. intros v' Hv'. cbn. tauto.
    + apply map_lookup_filter_Some. by split.
  - rewrite (proj2 (map_lookup_filter_None _ _ _)) by (by left).
    by destruct (decide _).
Qed.

(** X28: what [excludeStateProps] gives has none of the excluded keys
    and every other key with its value; excluding in two steps is
    excluding both lists at once, so a second pass with the same list
    changes nothing. *)
Theorem excludeStateProps_drops_exactly {V : Type}
    (excludeProps more : list string) (state : gmap string V) :
  (∀ key, excludeStateProps excludeProps state !! key
          = if decide (key ∈ excludeProps) then None else state !! key)
  ∧ excludeStateProps more (excludeStateProps excludeProps state)
    = excludeStateProps (excludeProps ++ more) state
  ∧ excludeStateProps excludeProps (excludeStateProps excludeProps state)
    = excludeStateProps excludeProps state.
Proof.
  split_and!.
  - apply excludeStateProps_lookup.
  - apply map_eq. intros key. rewrite !excludeStateProps_lookup.
    destruct (decide (key ∈ more)), (decide (key ∈ excludeProps)),
      (decide (key ∈ excludeProps ++ more)) as [Hin|Hout];
      try done; exfalso;
      rewrite ?elem_of_app in *; tauto.
  - apply map_eq. intros key. rewrite !excludeStateProps_lookup.
    by destruct (decide (key ∈ excludeProps)).
Qed.

(** X29: when the list view is mounted, the slideshow is off, the
    navigation is shown and the shuffled order is empty, whatever the
    store held; every other value of the store is kept, and a second
    mount changes nothing. *)
Theorem allViewMounted_resets_slideshow (s : SingleViewStore.t) :
  let s' := allViewMounted s in
  SingleViewStore.isSlideshowActive s' = false
  ∧ SingleViewStore.showNavigation s' = true
  ∧ SingleViewStore.shuffledIndices s' = []
  ∧ s' = SingleViewStore.mk
           (SingleViewStore.lastId s) (SingleViewStore.lastIndex s)
           (SingleViewStore.showDetails s) (SingleViewStore.showAnnotations s)
           true false (SingleViewStore.hideNavigation s)
           (SingleViewStore.shuffledIndex s) []
           (SingleViewStore.loopImages s) (SingleViewStore.shuffleImages s)
           (SingleViewStore.shuffleDirty s)
           (SingleViewStore.resetSearchOnLoopEnd s)
           (SingleViewStore.slideshowInterval s)
           (SingleViewStore.slideshowTimeout s)
           (SingleViewStore.navigationTimeout s)
  ∧ allViewMounted s' = s'.
Proof.
  destruct s as [? ? ? ? nav ? ? ? ? ? ? ? ? ? ? ?].
  by destruct nav.
Qed.
